(** * deferrable: a LIFO stack of deferred callbacks around an async unit of work

    Shallow embedding of [src/index.ts].  The repository keeps two variants
    of [deferrable] side by side:

    - lines 42-59: the drain loop catches and discards what a deferred
      callback throws, and the result tuple is read after the loop ([V1]);
    - lines 130-151: the drain loop rethrows it, so the run fails fast, and
      the result tuple is read before the loop ([V2]).

    Both share [ok], [failure] and [wrap]. *)

From Stdlib Require Import ZArith Lia.
From stdpp Require Import base list strings.

Open Scope string_scope.
Open Scope list_scope.

(** ** JavaScript values

    Only what the engine can tell apart matters: it compares the error slot
    with [undefined] and otherwise passes values through untouched.  Error
    objects are identified by their message; [AggregateError] carries its
    [errors] array. *)

#[warnings="-register-all"]
Inductive JsVal : Type :=
| VUndefined
| VNumber (n : Z)
| VString (s : string)
| VError (message : string)
| VAggregateError (errors : list JsVal).

(** [v === undefined] *)
Definition is_undefined (v : JsVal) : bool :=
  match v with
  | VUndefined => true
  | _ => false
  end.

(** [type Result<T, E> = [value: T, error: undefined] | [value: undefined, error: E]] *)
Definition Result : Type := (JsVal * JsVal)%type.

Definition ok (value : JsVal) : Result := (value, VUndefined).

Definition failure (error : JsVal) : Result := (VUndefined, error).

(** The fate of a promise once it is awaited: it resolves, it rejects, or it
    never settles. *)
Inductive Promise (A : Type) : Type :=
| Resolved (a : A)
| Rejected (e : JsVal)
| Pending.

Arguments Resolved {A} a.
Arguments Rejected {A} e.
Arguments Pending {A}.

(** [async function wrap(promise)]: [try { return ok(await promise) }
    catch (error) { return failure(error) }]. *)
Definition wrap (promise : Promise JsVal) : Promise Result :=
  match promise with
  | Resolved value => Resolved (ok value)
  | Rejected error => Resolved (failure error)
  | Pending => Pending
  end.

(** ** Callback bodies

    What a callback can do that the engine observes: register a deferred
    callback through [defer], record a name in the caller's own [calls]
    array (as the tests do), write into a slot of the result tuple it was
    handed (the tuple is one array, shared by the engine and all deferred
    callbacks), and finally return, throw, or never settle.  A callback
    fails either through the promise it returns ([Throw]: a rejected
    promise, or a throw in an async function) or by throwing before it
    returns any promise ([ThrowSync]).

    The unit of work [fn] is such a body, and a deferred callback is a body
    that depends on the content of the tuple at the moment it is invoked.  A
    registration made from outside while a callback is awaited reaches the
    stack during that callback's invocation, and counts here as a [Defer] of
    that callback.  The bodies are finite trees: a chain of callbacks that
    goes on registering callbacks without end is not among them. *)

Inductive Body : Type :=
| Return (v : JsVal)
| Throw (e : JsVal)
| ThrowSync (e : JsVal)
| Hang
| Defer (exec : Result -> Body) (k : Body)
| CallsPush (name : string) (k : Body)
| SetValue (v : JsVal) (k : Body)
| SetError (e : JsVal) (k : Body).

(** [type DeferredCallback<T, E> = (result) => void | Promise<void>] *)
Definition DeferredCallback : Type := Result -> Body.

(** The per-run [stack] array (last element = top) and the caller's [calls]
    array. *)
Record World : Type := mkWorld {
  stack : list DeferredCallback;
  calls : list string
}.

(** [stack.push(exec)] *)
Definition push (exec : DeferredCallback) (w : World) : World :=
  mkWorld (stack w ++ [exec]) (calls w).

(** [stack.pop()]: the last element and the array without it. *)
Definition pop {A : Type} (l : list A) : option (A * list A) :=
  match rev l with
  | [] => None
  | x :: r => Some (x, rev r)
  end.

(** Running a callback body up to the point where it has thrown or its
    promise has settled.  [result] is the content of the result tuple, which
    [result[0] = v] and [result[1] = e] change.  Awaited inside a [try], a
    synchronous throw and a rejection are the same failure. *)
Fixpoint run_body (b : Body) (w : World) (result : Result)
  : Promise JsVal * World * Result :=
  match b with
  | Return v => (Resolved v, w, result)
  | Throw e => (Rejected e, w, result)
  | ThrowSync e => (Rejected e, w, result)
  | Hang => (Pending, w, result)
  | Defer exec k => run_body k (push exec w) result
  | CallsPush name k => run_body k (mkWorld (stack w) (calls w ++ [name])) result
  | SetValue v k => run_body k w (v, result.2)
  | SetError e k => run_body k w (result.1, e)
  end.

(** The error of a body that throws before it returns a promise. *)
Fixpoint raised (b : Body) : option JsVal :=
  match b with
  | ThrowSync e => Some e
  | Defer _ k => raised k
  | CallsPush _ k => raised k
  | SetValue _ k => raised k
  | SetError _ k => raised k
  | _ => None
  end.

(** One iteration of the drain loop, as the run's history records it: which
    callback was popped, the content of the tuple it was handed and how it
    settled. *)
Record Invocation : Type := mkInvocation {
  inv_exec : DeferredCallback;
  inv_result : Result;
  inv_settled : Promise JsVal
}.

(** How the [while (stack.length)] loop is left. *)
Inductive LoopExit : Type :=
| Exhausted
| Thrown (error : JsVal)
| Suspended.

(** What a run of [deferrable] amounts to: the fate of the promise it
    returns, the world it leaves and the invocations it made, oldest
    first. *)
Record Run : Type := mkRun {
  settled : Promise JsVal;
  final : World;
  invocations : list Invocation
}.

(** The callbacks a body registers itself, in registration order. *)
Fixpoint deferred (b : Body) : list DeferredCallback :=
  match b with
  | Defer exec k => exec :: deferred k
  | CallsPush _ k => deferred k
  | SetValue _ k => deferred k
  | SetError _ k => deferred k
  | _ => []
  end.

(** The names a body records itself. *)
Fixpoint recorded (b : Body) : list string :=
  match b with
  | Defer _ k => recorded k
  | CallsPush name k => name :: recorded k
  | SetValue _ k => recorded k
  | SetError _ k => recorded k
  | _ => []
  end.

(** How a body settles for a caller that awaits it inside a [try]. *)
Fixpoint outcome (b : Body) : Promise JsVal :=
  match b with
  | Return v => Resolved v
  | Throw e => Rejected e
  | ThrowSync e => Rejected e
  | Hang => Pending
  | Defer _ k => outcome k
  | CallsPush _ k => outcome k
  | SetValue _ k => outcome k
  | SetError _ k => outcome k
  end.

(** The content of the tuple once a body has made its own writes. *)
Fixpoint written (b : Body) (result : Result) : Result :=
  match b with
  | SetValue v k => written k (v, result.2)
  | SetError e k => written k (result.1, e)
  | Defer _ k => written k result
  | CallsPush _ k => written k result
  | _ => result
  end.

(** *** The run's history, described without the loop

    [body_trace b t] lists, oldest first, the invocations that the callbacks
    registered by [b] give rise to when nothing stops the loop and the tuple
    holds [t] when the first of them is popped: the callbacks [b] registered
    last come first, each invocation is followed at once by those of the
    callbacks it registered itself, and each is handed the tuple as the
    invocations before it left it.  [body_end b t] is the content of the
    tuple after the last of them.  [pops_trace] and [pops_end] are the same
    for a list of callbacks in the order in which they are popped,
    [stack_trace] and [stack_end] for a stack. *)
Fixpoint body_end (b : Body) (t : Result) : Result :=
  match b with
  | Defer exec k =>
      let t1 := body_end k t in
      body_end (exec t1) (written (exec t1) t1)
  | CallsPush _ k => body_end k t
  | SetValue _ k => body_end k t
  | SetError _ k => body_end k t
  | _ => t
  end.

Fixpoint body_trace (b : Body) (t : Result) : list Invocation :=
  match b with
  | Defer exec k =>
      let t1 := body_end k t in
      body_trace k t
      ++ mkInvocation exec t1 (outcome (exec t1))
         :: body_trace (exec t1) (written (exec t1) t1)
  | CallsPush _ k => body_trace k t
  | SetValue _ k => body_trace k t
  | SetError _ k => body_trace k t
  | _ => []
  end.

Fixpoint pops_end (l : list DeferredCallback) (t : Result) : Result :=
  match l with
  | [] => t
  | exec :: l' => pops_end l' (body_end (exec t) (written (exec t) t))
  end.

Fixpoint pops_trace (l : list DeferredCallback) (t : Result) : list Invocation :=
  match l with
  | [] => []
  | exec :: l' =>
      mkInvocation exec t (outcome (exec t))
      :: body_trace (exec t) (written (exec t) t)
      ++ pops_trace l' (body_end (exec t) (written (exec t) t))
  end.

Definition stack_trace (st : list DeferredCallback) (t : Result) : list Invocation :=
  pops_trace (rev st) t.

Definition stack_end (st : list DeferredCallback) (t : Result) : Result :=
  pops_end (rev st) t.

(** *** A bound on the number of loop iterations

    A deferred callback may itself call [defer], so the loop is not bounded
    by the length of the stack at its start: it can make as many iterations
    as the history of the stack has entries. *)
Definition pending (st : list DeferredCallback) (result : Result) : nat :=
  length (stack_trace st result).

(** ** First variant (lines 42-59): deferred errors are caught and dropped *)
Module V1.

(** [while (stack.length) { const exec = stack.pop()!;
      try { await exec(result); } catch { } }] *)
Fixpoint drain (fuel : nat) (result : Result) (w : World) (tr : list Invocation)
  : option (LoopExit * World * Result * list Invocation) :=
  match pop (stack w) with
  | None => Some (Exhausted, w, result, tr)
  | Some (exec, rest) =>
      match fuel with
      | O => None
      | S fuel' =>
          let '(p, w', result') :=
            run_body (exec result) (mkWorld rest (calls w)) result in
          let tr' := tr ++ [mkInvocation exec result p] in
          match p with
          | Resolved _ => drain fuel' result' w' tr'
          | Rejected _ => drain fuel' result' w' tr'
          | Pending => Some (Suspended, w', result', tr')
          end
      end
  end.

(** [fn(defer)] is evaluated first, outside any [try]: when it throws before
    returning a promise, the run rejects at once and nothing is drained.
    Otherwise the promise is captured by [wrap], the stack is drained, and
    only then is the tuple taken apart (line 56).  No tuple exists while
    [fn] runs, so [fn] is run on a placeholder. *)
Definition deferrable (fn : Body) : option Run :=
  let '(p, w, _) := run_body fn (mkWorld [] []) (VUndefined, VUndefined) in
  match raised fn with
  | Some e => Some (mkRun (Rejected e) w [])
  | None =>
      match wrap p with
      | Pending => Some (mkRun Pending w [])
      | Rejected e => Some (mkRun (Rejected e) w [])
      | Resolved result =>
          match drain (pending (stack w) result) result w [] with
          | None => None
          | Some (Suspended, w', _, tr) => Some (mkRun Pending w' tr)
          | Some (Thrown e, w', _, tr) => Some (mkRun (Rejected e) w' tr)
          | Some (Exhausted, w', result', tr) =>
              let '(value, error) := result' in
              if is_undefined error
              then Some (mkRun (Resolved value) w' tr)
              else Some (mkRun (Rejected error) w' tr)
          end
      end
  end.

End V1.

(** ** Second variant (lines 130-151): a deferred error ends the run *)
Module V2.

(** [while (stack.length) { const exec = stack.pop()!;
      try { await exec(result); } catch (error) { throw error; } }] *)
Fixpoint drain (fuel : nat) (result : Result) (w : World) (tr : list Invocation)
  : option (LoopExit * World * Result * list Invocation) :=
  match pop (stack w) with
  | None => Some (Exhausted, w, result, tr)
  | Some (exec, rest) =>
      match fuel with
      | O => None
      | S fuel' =>
          let '(p, w', result') :=
            run_body (exec result) (mkWorld rest (calls w)) result in
          let tr' := tr ++ [mkInvocation exec result p] in
          match p with
          | Resolved _ => drain fuel' result' w' tr'
          | Rejected error => Some (Thrown error, w', result', tr')
          | Pending => Some (Suspended, w', result', tr')
          end
      end
  end.

(** As in the first variant [fn(defer)] is evaluated outside any [try]
    (line 137).  The tuple is taken apart before the loop (line 138), so
    what the callbacks write into it does not reach the settlement. *)
Definition deferrable (fn : Body) : option Run :=
  let '(p, w, _) := run_body fn (mkWorld [] []) (VUndefined, VUndefined) in
  match raised fn with
  | Some e => Some (mkRun (Rejected e) w [])
  | None =>
      match wrap p with
      | Pending => Some (mkRun Pending w [])
      | Rejected e => Some (mkRun (Rejected e) w [])
      | Resolved result =>
          let '(value, mainError) := result in
          match drain (pending (stack w) result) result w [] with
          | None => None
          | Some (Suspended, w', _, tr) => Some (mkRun Pending w' tr)
          | Some (Thrown error, w', _, tr) => Some (mkRun (Rejected error) w' tr)
          | Some (Exhausted, w', _, tr) =>
              if is_undefined mainError
              then Some (mkRun (Resolved value) w' tr)
              else Some (mkRun (Rejected mainError) w' tr)
          end
      end
  end.

End V2.

(** ** Reading a history *)

(** The names an invocation recorded, the callbacks it registered, and the
    content of the tuple when it was over. *)
Definition recorded_by (i : Invocation) : list string :=
  recorded (inv_exec i (inv_result i)).

Definition registered_by (i : Invocation) : list DeferredCallback :=
  deferred (inv_exec i (inv_result i)).

Definition left_by (i : Invocation) : Result :=
  written (inv_exec i (inv_result i)) (inv_result i).

(** The callbacks of [l], popped in that order and each handed the tuple as
    the one before left it, starting from [t], register nothing. *)
Fixpoint register_nothing (l : list DeferredCallback) (t : Result) : Prop :=
  match l with
  | [] => True
  | exec :: l' => deferred (exec t) = [] /\ register_nothing l' (written (exec t) t)
  end.

(** The tuple is handed on: the first invocation finds [t] in it, each later
    one what the invocation before it left. *)
Fixpoint handed_on (t : Result) (l : list Invocation) : Prop :=
  match l with
  | [] => True
  | i :: l' => inv_result i = t /\ handed_on (left_by i) l'
  end.

(** The content of the tuple after a history that started on [t]. *)
Fixpoint last_tuple (t : Result) (l : list Invocation) : Result :=
  match l with
  | [] => t
  | i :: l' => last_tuple (left_by i) l'
  end.

(** What the history of a run says happened did happen: each entry settled
    the way its callback settles on the tuple it was handed, the caller's
    array holds what the unit of work and then each invocation recorded, and
    the callbacks invoked together with those still on the stack are the
    callbacks registered, each as often as it was registered. *)
Definition faithful_history (fn : Body) (run : Run) : Prop :=
  (forall i, i ∈ invocations run ->
             inv_settled i = outcome (inv_exec i (inv_result i)))
  /\ calls (final run) = recorded fn ++ flat_map recorded_by (invocations run)
  /\ stack (final run) ++ (inv_exec <$> invocations run)
     ≡ₚ deferred fn ++ flat_map registered_by (invocations run).

Definition is_resolved {A : Type} (p : Promise A) : bool :=
  match p with
  | Resolved _ => true
  | _ => false
  end.

Definition is_pending {A : Type} (p : Promise A) : bool :=
  match p with
  | Pending => true
  | _ => false
  end.

(** The first variant's loop goes on unless an invocation never settles; the
    second variant's loop stops at the first invocation that does not
    resolve. *)
Definition stops_v1 (i : Invocation) : bool := is_pending (inv_settled i).

Definition stops_v2 (i : Invocation) : bool := negb (is_resolved (inv_settled i)).

(** The part of a history up to and including the first stopping entry. *)
Fixpoint through {A : Type} (stop : A -> bool) (l : list A) : list A :=
  match l with
  | [] => []
  | x :: l' => if stop x then [x] else x :: through stop l'
  end.

Definition exit_at (i : Invocation) : LoopExit :=
  match inv_settled i with
  | Rejected error => Thrown error
  | _ => Suspended
  end.

Fixpoint loop_exit (stop : Invocation -> bool) (l : list Invocation) : LoopExit :=
  match l with
  | [] => Exhausted
  | i :: l' => if stop i then exit_at i else loop_exit stop l'
  end.

(** What the code after the loop makes of a result tuple. *)
Definition conclude (result : Result) (exit : LoopExit) : Promise JsVal :=
  match exit with
  | Suspended => Pending
  | Thrown error => Rejected error
  | Exhausted => if is_undefined result.2 then Resolved result.1 else Rejected result.2
  end.

(** ** Reading a [Result] the way the spec's tagged union does *)
Definition carries_value (r : Result) : bool := negb (is_undefined r.1).

Definition carries_error (r : Result) : bool := negb (is_undefined r.2).

(** ** The repository's test scenarios as bodies *)

Definition record_and_return (name : string) : DeferredCallback :=
  fun _ => CallsPush name (Return VUndefined).

(** "returns the resolved value and runs deferred callbacks in LIFO order" *)
Definition test_lifo : Body :=
  Defer (record_and_return "a")
    (Defer (record_and_return "b")
      (Defer (record_and_return "c") (Return (VNumber 42)))).

(** "runs deferred callbacks even when the main function rejects, then
    rethrows the error" *)
Definition test_main_rejects : Body :=
  Defer (record_and_return "first")
    (Defer (record_and_return "second") (Throw (VError "boom"))).

(** "swallows errors thrown by deferred callbacks" (first variant's tests) *)
Definition test_swallow : Body :=
  Defer (fun _ => CallsPush "before-throw" (Throw (VError "ignored")))
    (Defer (record_and_return "after-throw") (Return (VString "ok"))).

(** "fails fast when a deferred callback throws" *)
Definition test_fail_fast : Body :=
  Defer (record_and_return "first")
    (Defer (fun _ => CallsPush "second" (Throw (VError "defer failed")))
      (Defer (record_and_return "third") (Return (VString "ok")))).

(** "when the main function fails and a deferred callback fails, it throws
    an AggregateError containing both" *)
Definition test_both_fail : Body :=
  Defer (fun _ => Throw (VError "defer failed")) (Throw (VError "main failed")).

(** ** Further inputs *)

(** An input on which a failing callback is not the last one on the stack:
    the callback registered second throws, the one registered first records
    its name. *)
Definition throw_then_more : Body :=
  Defer (record_and_return "first")
    (Defer (fun _ => Throw (VError "defer failed")) (Return (VString "ok"))).

(** A deferred callback that itself calls [defer] while the stack is being
    drained. *)
Definition registers_while_draining : Body :=
  Defer (record_and_return "outer")
    (Defer (fun _ => CallsPush "registrar"
                       (Defer (record_and_return "late") (Return VUndefined)))
       (Return (VNumber 1))).

(** The same, but the registering callback throws after it has registered. *)
Definition registrar_throws : Body :=
  Defer (record_and_return "outer")
    (Defer (fun _ => CallsPush "registrar"
                       (Defer (record_and_return "late")
                              (Throw (VError "defer failed"))))
       (Return (VNumber 1))).

(** A unit of work that registers a callback and then never settles. *)
Definition hangs_after_registering : Body :=
  Defer (record_and_return "cleanup") (CallsPush "started" Hang).

(** The callback drained first never settles; another one waits below it. *)
Definition callback_hangs : Body :=
  Defer (record_and_return "below")
    (Defer (fun _ => CallsPush "stuck" Hang) (Return (VNumber 7))).

(** A unit of work that is not an async function: it registers a callback
    and throws before it returns a promise. *)
Definition throws_before_promise : Body :=
  Defer (record_and_return "cleanup") (ThrowSync (VError "boom")).

Definition throws_undefined_before_promise : Body :=
  Defer (record_and_return "cleanup") (ThrowSync VUndefined).

(** The unit of work rejects; its one deferred callback overwrites both
    slots of the tuple ([result[0] = "recovered"; result[1] = undefined]). *)
Definition overwrites_outcome : Body :=
  Defer (fun _ => SetValue (VString "recovered") (SetError VUndefined (Return VUndefined)))
    (Throw (VError "boom")).

(** A callback that records what it finds in the value slot. *)
Definition record_value : DeferredCallback :=
  fun r =>
    match r.1 with
    | VNumber n => CallsPush "number" (Return VUndefined)
    | VString s => CallsPush s (Return VUndefined)
    | _ => CallsPush "other" (Return VUndefined)
    end.

(** The unit of work returns 42; the callback drained first writes "x" into
    the value slot, the one drained next records what it finds there. *)
Definition writer_then_reader : Body :=
  Defer record_value
    (Defer (fun _ => SetValue (VString "x") (Return VUndefined))
       (Return (VNumber 42))).

(** The same after a unit of work that rejects. *)
Definition writer_then_reader_rejected : Body :=
  Defer record_value
    (Defer (fun _ => SetValue (VString "x") (Return VUndefined))
       (Throw (VError "boom"))).

(** The unit of work rejects with [undefined]; its deferred callback
    throws. *)
Definition undefined_then_cleanup_fails : Body :=
  Defer (fun _ => Throw (VError "cleanup failed")) (Throw VUndefined).

(** The callback drained first writes "x" into the value slot and registers
    two callbacks; the one it registered last registers "late" when it finds
    a string in the value slot, and nothing otherwise. *)
Definition registers_on_written_tuple : Body :=
  Defer (record_and_return "below")
    (Defer (fun _ =>
              SetValue (VString "x")
                (Defer (record_and_return "e1")
                   (Defer (fun r => match r.1 with
                                    | VString _ =>
                                        Defer (record_and_return "late") (Return VUndefined)
                                    | _ => Return VUndefined
                                    end)
                      (Return VUndefined))))
       (Return (VNumber 1))).

(** * Properties *)

(** ** The scenarios of the test files *)

Example test_lifo_v2 :
  (fun r => (settled r, calls (final r))) <$> V2.deferrable test_lifo
  = Some (Resolved (VNumber 42), ["c"; "b"; "a"]).
Proof. reflexivity. Qed.

Example test_main_rejects_v2 :
  (fun r => (settled r, calls (final r))) <$> V2.deferrable test_main_rejects
  = Some (Rejected (VError "boom"), ["second"; "first"]).
Proof. reflexivity. Qed.

Example test_fail_fast_v2 :
  (fun r => (settled r, calls (final r))) <$> V2.deferrable test_fail_fast
  = Some (Rejected (VError "defer failed"), ["third"; "second"]).
Proof. reflexivity. Qed.

Example test_swallow_v1 :
  (fun r => (settled r, calls (final r))) <$> V1.deferrable test_swallow
  = Some (Resolved (VString "ok"), ["after-throw"; "before-throw"]).
Proof. reflexivity. Qed.

Example registers_while_draining_v2 :
  (fun r => (settled r, calls (final r))) <$> V2.deferrable registers_while_draining
  = Some (Resolved (VNumber 1), ["registrar"; "late"; "outer"]).
Proof. reflexivity. Qed.

(** A unit of work that throws before returning a promise: nothing is
    drained, in either variant. *)
Example throws_before_promise_runs :
  V1.deferrable throws_before_promise
  = Some (mkRun (Rejected (VError "boom")) (mkWorld [record_and_return "cleanup"] []) [])
  /\ V2.deferrable throws_before_promise
     = Some (mkRun (Rejected (VError "boom")) (mkWorld [record_and_return "cleanup"] []) []).
Proof. split; reflexivity. Qed.

(** A callback that overwrites the tuple changes the first variant's
    settlement and leaves the second variant's alone. *)
Example overwrites_outcome_runs :
  settled <$> V1.deferrable overwrites_outcome = Some (Resolved (VString "recovered"))
  /\ settled <$> V2.deferrable overwrites_outcome = Some (Rejected (VError "boom")).
Proof. split; reflexivity. Qed.

(** What a callback registers can depend on what an earlier one wrote: the
    callback registered last by the first invocation registers nothing on
    the tuple that invocation was handed, but it is handed the tuple as
    written, registers "late", and "late" runs before "e1". *)
Example registers_on_written_tuple_runs :
  exists run i post,
    V2.deferrable registers_on_written_tuple = Some run
    /\ invocations run = i :: post
    /\ (forall exec, exec ∈ registered_by i -> deferred (exec (inv_result i)) = [])
    /\ calls (final run) = ["late"; "e1"; "below"]
    /\ ~ rev (registered_by i) `prefix_of` (inv_exec <$> post).
Proof.
  eexists _, _, _. split; [reflexivity |]. split; [reflexivity |]. split; [| split].
  - intros exec Hin. unfold registered_by in Hin. simpl in Hin.
    repeat (apply elem_of_cons in Hin as [->|Hin]); try (by apply elem_of_nil in Hin);
      reflexivity.
  - reflexivity.
  - intros [k Hk]. vm_compute in Hk.
    apply (f_equal (fun l => l !! 1)) in Hk. simpl in Hk. injection Hk as Hk.
    apply (f_equal (fun f => f (VUndefined, VUndefined))) in Hk. discriminate.
Qed.

(** ** Arrays used as stacks *)

Lemma pop_nil {A : Type} : pop (@nil A) = None.
Proof. reflexivity. Qed.

Lemma pop_snoc {A : Type} (l : list A) (x : A) : pop (l ++ [x]) = Some (x, l).
Proof. unfold pop. rewrite rev_app_distr. simpl. by rewrite rev_involutive. Qed.

Lemma pop_inv {A : Type} (l rest : list A) (x : A) :
  pop l = Some (x, rest) -> l = rest ++ [x].
Proof.
  unfold pop. destruct (rev l) as [|y r] eqn:Hrev; intros [= <- <-].
  rewrite <- (rev_involutive l), Hrev. reflexivity.
Qed.

(** ** Bodies *)

Lemma run_body_spec (b : Body) (w : World) (t : Result) :
  run_body b w t
  = (outcome b, mkWorld (stack w ++ deferred b) (calls w ++ recorded b), written b t).
Proof.
  revert w t.
  induction b as [v|e|e| |exec IHexec k IHk|name k IHk|v k IHk|e k IHk];
    intros [st cs] t; simpl;
    try (by rewrite !app_nil_r); rewrite IHk; simpl; by rewrite <- ?app_assoc.
Qed.

Lemma raised_outcome (b : Body) (e : JsVal) :
  raised b = Some e -> outcome b = Rejected e.
Proof.
  induction b as [v|e'|e'| |exec IHexec k IHk|name k IHk|v k IHk|e' k IHk];
    simpl; try done; by intros [= ->].
Qed.

Lemma raised_none (b : Body) :
  (forall e, outcome b <> Rejected e) -> raised b = None.
Proof.
  intros H. destruct (raised b) as [e|] eqn:Hr; [| done].
  by destruct (H e (raised_outcome b e Hr)).
Qed.

(** ** Histories of stacks and of bodies *)

Lemma pops_end_app (l1 l2 : list DeferredCallback) (t : Result) :
  pops_end (l1 ++ l2) t = pops_end l2 (pops_end l1 t).
Proof. revert t. induction l1 as [|exec l1 IH]; intros t; simpl; [done | apply IH]. Qed.

Lemma pops_trace_app (l1 l2 : list DeferredCallback) (t : Result) :
  pops_trace (l1 ++ l2) t = pops_trace l1 t ++ pops_trace l2 (pops_end l1 t).
Proof.
  revert t. induction l1 as [|exec l1 IH]; intros t; simpl; [done |].
  by rewrite IH, <- app_assoc.
Qed.

Lemma body_end_deferred (b : Body) (t : Result) :
  body_end b t = stack_end (deferred b) t.
Proof.
  unfold stack_end. revert t.
  induction b as [v|e|e| |exec IHexec k IHk|name k IHk|v k IHk|e k IHk];
    intros t; simpl; try done.
  rewrite pops_end_app, <- IHk. reflexivity.
Qed.

Lemma body_trace_deferred (b : Body) (t : Result) :
  body_trace b t = stack_trace (deferred b) t.
Proof.
  unfold stack_trace. revert t.
  induction b as [v|e|e| |exec IHexec k IHk|name k IHk|v k IHk|e k IHk];
    intros t; simpl; try done.
  rewrite pops_trace_app, <- IHk. f_equal.
  change (pops_end (rev (deferred k)) t) with (stack_end (deferred k) t).
  rewrite <- body_end_deferred. simpl. by rewrite app_nil_r.
Qed.

Lemma stack_trace_nil (t : Result) : stack_trace [] t = [].
Proof. reflexivity. Qed.

(** The history of a stack starts with its top. *)
Lemma stack_trace_snoc (st : list DeferredCallback) (exec : DeferredCallback) (t : Result) :
  stack_trace (st ++ [exec]) t
  = mkInvocation exec t (outcome (exec t))
    :: body_trace (exec t) (written (exec t) t)
    ++ stack_trace st (body_end (exec t) (written (exec t) t)).
Proof. unfold stack_trace. rewrite rev_app_distr. reflexivity. Qed.

(** What an invocation pushed is on top of what was there. *)
Lemma stack_trace_pushed (st : list DeferredCallback) (b : Body) (t : Result) :
  stack_trace (st ++ deferred b) t = body_trace b t ++ stack_trace st (body_end b t).
Proof.
  rewrite body_trace_deferred, body_end_deferred. unfold stack_trace, stack_end.
  by rewrite rev_app_distr, pops_trace_app.
Qed.

(** ** Histories cut at the first stopping entry *)

Lemma through_prefix {A : Type} (stop : A -> bool) (l : list A) :
  through stop l `prefix_of` l.
Proof.
  induction l as [|x l IH]; simpl; [done |].
  destruct (stop x).
  - by apply prefix_cons, prefix_nil.
  - by apply prefix_cons.
Qed.

Lemma through_id {A : Type} (stop : A -> bool) (l : list A) :
  (forall x, x ∈ through stop l -> stop x = false) -> through stop l = l.
Proof.
  induction l as [|x l IH]; simpl; [done |].
  destruct (stop x) eqn:Hx; intros H.
  - specialize (H x (list_elem_of_here _ _)). congruence.
  - f_equal. apply IH. intros y Hy. apply H. by apply list_elem_of_further.
Qed.

(** Only the last entry of a cut history can be a stopping one. *)
Lemma through_stop_last {A : Type} (stop : A -> bool) (l pre post : list A) (x : A) :
  through stop l = pre ++ x :: post -> stop x = true -> post = [].
Proof.
  revert pre. induction l as [|y l IH]; intros pre; simpl.
  - by destruct pre.
  - destruct (stop y) eqn:Hy.
    + destruct pre as [|z pre]; simpl; intros [= -> H] _; [done |].
      by destruct pre.
    + destruct pre as [|z pre]; simpl; intros [= -> H] Hx; [congruence |].
      by eapply IH.
Qed.

Lemma loop_exit_exhausted (stop : Invocation -> bool) (l : list Invocation) :
  (forall i, i ∈ through stop l -> stop i = false) -> loop_exit stop l = Exhausted.
Proof.
  induction l as [|x l IH]; simpl; [done |].
  destruct (stop x) eqn:Hx; intros H.
  - specialize (H x (list_elem_of_here _ _)). congruence.
  - apply IH. intros y Hy. apply H. by apply list_elem_of_further.
Qed.

Lemma loop_exit_stopped (stop : Invocation -> bool) (l : list Invocation) (i : Invocation) :
  i ∈ through stop l -> stop i = true -> loop_exit stop l = exit_at i.
Proof.
  induction l as [|x l IH]; simpl.
  - by intros ?%elem_of_nil.
  - destruct (stop x) eqn:Hx.
    + by intros ->%list_elem_of_singleton _.
    + intros [->|Hi]%elem_of_cons Hs; [congruence | by apply IH].
Qed.

Lemma exit_at_not_exhausted (i : Invocation) : exit_at i <> Exhausted.
Proof. unfold exit_at. by destruct (inv_settled i). Qed.

Lemma loop_exit_exhausted_inv (stop : Invocation -> bool) (l : list Invocation) :
  loop_exit stop l = Exhausted ->
  through stop l = l /\ forall i, i ∈ l -> stop i = false.
Proof.
  induction l as [|x l IH]; simpl; [by split; [| intros i ?%elem_of_nil] |].
  destruct (stop x) eqn:Hx.
  - by intros ?%exit_at_not_exhausted.
  - intros [Hcut Hall]%IH. split; [by rewrite Hcut |].
    intros i [->|Hi]%elem_of_cons; [done | by apply Hall].
Qed.

(** A loop that is not left because the stack ran dry is left at the last
    entry of its history. *)
Lemma loop_exit_stopped_inv (stop : Invocation -> bool) (l : list Invocation) :
  loop_exit stop l <> Exhausted ->
  exists pre i, through stop l = pre ++ [i] /\ stop i = true
                /\ loop_exit stop l = exit_at i.
Proof.
  induction l as [|x l IH]; simpl; [done |].
  destruct (stop x) eqn:Hx.
  - intros _. by exists [], x.
  - intros (pre & i & -> & Hi & He)%IH. by exists (x :: pre), i.
Qed.

(** ** The tuple along a history *)

Lemma last_tuple_app (t : Result) (l1 l2 : list Invocation) :
  last_tuple t (l1 ++ l2) = last_tuple (last_tuple t l1) l2.
Proof. revert t. induction l1 as [|i l1 IH]; intros t; simpl; [done | apply IH]. Qed.

Lemma handed_on_app (t : Result) (l1 l2 : list Invocation) :
  handed_on t (l1 ++ l2) <-> handed_on t l1 /\ handed_on (last_tuple t l1) l2.
Proof.
  revert t. induction l1 as [|i l1 IH]; intros t; simpl; [tauto |].
  rewrite IH. tauto.
Qed.

Lemma handed_on_prefix (t : Result) (l1 l2 : list Invocation) :
  l1 `prefix_of` l2 -> handed_on t l2 -> handed_on t l1.
Proof. intros [k ->] H. by apply handed_on_app in H as [H _]. Qed.

Lemma body_trace_handed_on (b : Body) (t : Result) :
  handed_on t (body_trace b t) /\ last_tuple t (body_trace b t) = body_end b t.
Proof.
  revert t.
  induction b as [v|e|e| |exec IHexec k IHk|name k IHk|v k IHk|e k IHk];
    intros t; simpl; try done.
  destruct (IHk t) as [Hk1 Hk2].
  destruct (IHexec (body_end k t) (written (exec (body_end k t)) (body_end k t)))
    as [He1 He2].
  split.
  - apply handed_on_app. split; [done |]. rewrite Hk2. simpl. done.
  - rewrite last_tuple_app, Hk2. simpl. exact He2.
Qed.

(** ** What a history contains *)

Lemma body_trace_truthful (b : Body) (t : Result) (i : Invocation) :
  i ∈ body_trace b t -> inv_settled i = outcome (inv_exec i (inv_result i)).
Proof.
  revert t.
  induction b as [v|e|e| |exec IHexec k IHk|name k IHk|v k IHk|e k IHk];
    intros t; simpl; try (by intros ?%elem_of_nil); try (by apply IHk).
  intros [Hi|[->|Hi]%elem_of_cons]%elem_of_app; [by eapply IHk | done |].
  by eapply IHexec.
Qed.

(** The callbacks registered by the body come in the reverse of their
    registration order, whatever the callbacks register themselves. *)
Lemma body_trace_lifo (b : Body) (t : Result) :
  rev (deferred b) `sublist_of` (inv_exec <$> body_trace b t).
Proof.
  revert t.
  induction b as [v|e|e| |exec IHexec k IHk|name k IHk|v k IHk|e k IHk];
    intros t; simpl; try done.
  rewrite fmap_app. apply sublist_app; [apply IHk |].
  simpl. apply sublist_skip, sublist_nil_l.
Qed.

(** Right after an entry come the entries of the callbacks it registered. *)
Lemma body_trace_nested (b : Body) (t : Result) (pre post : list Invocation) (i : Invocation) :
  body_trace b t = pre ++ i :: post ->
  body_trace (inv_exec i (inv_result i)) (left_by i) `prefix_of` post.
Proof.
  revert t pre post.
  induction b as [v|e|e| |exec IHexec k IHk|name k IHk|v k IHk|e k IHk];
    simpl; intros t pre post;
    try (by destruct pre); try (by apply IHk).
  intros [(m & Hk & Hm)|(m & -> & Hm)]%app_eq_inv.
  - destruct m as [|j m]; simpl in Hm.
    + injection Hm as -> ->. done.
    + injection Hm as -> ->. apply prefix_app_r. by eapply IHk.
  - destruct m as [|j m]; simpl in Hm.
    + injection Hm as <- <-. done.
    + injection Hm as <- Hm. by eapply IHexec.
Qed.

(** As long as the invoked callbacks register nothing, a cut history follows
    the order in which the callbacks are popped. *)
Lemma pops_trace_flat (stop : Invocation -> bool) (l : list DeferredCallback) (t : Result) :
  (forall i, i ∈ through stop (pops_trace l t) -> registered_by i = []) ->
  (inv_exec <$> through stop (pops_trace l t)) `prefix_of` l.
Proof.
  revert t. induction l as [|exec l IH]; intros t; simpl; [done |].
  destruct (stop _) eqn:Hs; intros Hflat.
  - simpl. apply prefix_cons, prefix_nil.
  - simpl. apply prefix_cons.
    assert (deferred (exec t) = []) as Hnone.
    { apply (Hflat (mkInvocation exec t (outcome (exec t)))), list_elem_of_here. }
    rewrite (body_trace_deferred (exec t)), (body_end_deferred (exec t)), Hnone in Hflat |- *.
    simpl in Hflat |- *. apply IH. intros i Hi. apply Hflat. by apply list_elem_of_further.
Qed.

Lemma prefix_fmap_mono {A B : Type} (f : A -> B) (l1 l2 : list A) :
  l1 `prefix_of` l2 -> (f <$> l1) `prefix_of` (f <$> l2).
Proof. intros [k ->]. rewrite fmap_app. by apply prefix_app_r. Qed.

(** ** The drain loops against the history *)

Lemma V1_drain_nil fuel t cs tr :
  V1.drain fuel t (mkWorld [] cs) tr = Some (Exhausted, mkWorld [] cs, t, tr).
Proof. by destruct fuel. Qed.

Lemma V2_drain_nil fuel t cs tr :
  V2.drain fuel t (mkWorld [] cs) tr = Some (Exhausted, mkWorld [] cs, t, tr).
Proof. by destruct fuel. Qed.

Lemma V1_drain_snoc fuel t rest exec cs tr :
  V1.drain (S fuel) t (mkWorld (rest ++ [exec]) cs) tr
  = let w' := mkWorld (rest ++ deferred (exec t)) (cs ++ recorded (exec t)) in
    let tr' := tr ++ [mkInvocation exec t (outcome (exec t))] in
    let t' := written (exec t) t in
    match outcome (exec t) with
    | Resolved _ => V1.drain fuel t' w' tr'
    | Rejected _ => V1.drain fuel t' w' tr'
    | Pending => Some (Suspended, w', t', tr')
    end.
Proof. simpl. rewrite pop_snoc, run_body_spec. reflexivity. Qed.

Lemma V2_drain_snoc fuel t rest exec cs tr :
  V2.drain (S fuel) t (mkWorld (rest ++ [exec]) cs) tr
  = let w' := mkWorld (rest ++ deferred (exec t)) (cs ++ recorded (exec t)) in
    let tr' := tr ++ [mkInvocation exec t (outcome (exec t))] in
    let t' := written (exec t) t in
    match outcome (exec t) with
    | Resolved _ => V2.drain fuel t' w' tr'
    | Rejected error => Some (Thrown error, w', t', tr')
    | Pending => Some (Suspended, w', t', tr')
    end.
Proof. simpl. rewrite pop_snoc, run_body_spec. reflexivity. Qed.

(** One more callback on top of the stack, in the accounts. *)
Lemma accounts_step (st' rest : list DeferredCallback) (exec : DeferredCallback)
      (t : Result) (p : Promise JsVal) (new : list Invocation) :
  st' ++ (inv_exec <$> new) ≡ₚ (rest ++ deferred (exec t)) ++ flat_map registered_by new ->
  st' ++ (inv_exec <$> mkInvocation exec t p :: new)
  ≡ₚ (rest ++ [exec]) ++ flat_map registered_by (mkInvocation exec t p :: new).
Proof.
  intros Hnew. simpl. unfold registered_by at 1. simpl.
  transitivity (exec :: (rest ++ deferred (exec t)) ++ flat_map registered_by new).
  - rewrite <- Permutation_middle. by apply Permutation_cons.
  - rewrite <- !app_assoc. simpl. apply Permutation_middle.
Qed.

(** With [pending] iterations allowed, the second variant's loop ends; its
    history is the stack's history cut at the first invocation that does not
    resolve, and the tuple, the caller's array and the stack are left as
    that history says. *)
Lemma V2_drain_spec fuel t st cs tr :
  length (stack_trace st t) <= fuel ->
  exists w',
    V2.drain fuel t (mkWorld st cs) tr
    = Some (loop_exit stops_v2 (stack_trace st t), w',
            last_tuple t (through stops_v2 (stack_trace st t)),
            tr ++ through stops_v2 (stack_trace st t))
    /\ calls w' = cs ++ flat_map recorded_by (through stops_v2 (stack_trace st t))
    /\ (loop_exit stops_v2 (stack_trace st t) = Exhausted -> stack w' = [])
    /\ stack w' ++ (inv_exec <$> through stops_v2 (stack_trace st t))
       ≡ₚ st ++ flat_map registered_by (through stops_v2 (stack_trace st t)).
Proof.
  revert t st cs tr. induction fuel as [|fuel IH]; intros t st cs tr Hfuel.
  - destruct st as [|exec rest _] using rev_ind.
    + exists (mkWorld [] cs). simpl. by rewrite !app_nil_r.
    + rewrite stack_trace_snoc in Hfuel. simpl in Hfuel. lia.
  - destruct st as [|exec rest _] using rev_ind.
    + exists (mkWorld [] cs). rewrite V2_drain_nil. simpl. by rewrite !app_nil_r.
    + rewrite V2_drain_snoc. cbn zeta.
      rewrite stack_trace_snoc in Hfuel |- *. simpl in Hfuel.
      cbn [through loop_exit].
      assert (Hs : stops_v2 (mkInvocation exec t (outcome (exec t)))
                   = negb (is_resolved (outcome (exec t)))) by done.
      assert (He : exit_at (mkInvocation exec t (outcome (exec t)))
                   = match outcome (exec t) with
                     | Rejected error => Thrown error
                     | _ => Suspended
                     end) by done.
      rewrite Hs, He. clear Hs He.
      destruct (outcome (exec t)) as [v|e|] eqn:Hout; cbn [is_resolved negb].
      * destruct (IH (written (exec t) t) (rest ++ deferred (exec t))
                     (cs ++ recorded (exec t))
                     (tr ++ [mkInvocation exec t (Resolved v)]))
          as (w' & Hd & Hc & Hst & Hperm).
        { rewrite stack_trace_pushed. lia. }
        rewrite stack_trace_pushed in Hd, Hc, Hst, Hperm.
        exists w'. rewrite Hd, Hc. repeat split.
        -- by rewrite <- app_assoc.
        -- simpl. by rewrite <- app_assoc.
        -- done.
        -- by apply accounts_step.
      * eexists. repeat split; [| done |].
        -- simpl. by rewrite app_nil_r.
        -- apply accounts_step. simpl. by rewrite !app_nil_r.
      * eexists. repeat split; [| done |].
        -- simpl. by rewrite app_nil_r.
        -- apply accounts_step. simpl. by rewrite !app_nil_r.
Qed.

(** The first variant's loop ends as well; its history is cut only where an
    invocation never settles. *)
Lemma V1_drain_spec fuel t st cs tr :
  length (stack_trace st t) <= fuel ->
  exists w',
    V1.drain fuel t (mkWorld st cs) tr
    = Some (loop_exit stops_v1 (stack_trace st t), w',
            last_tuple t (through stops_v1 (stack_trace st t)),
            tr ++ through stops_v1 (stack_trace st t))
    /\ calls w' = cs ++ flat_map recorded_by (through stops_v1 (stack_trace st t))
    /\ (loop_exit stops_v1 (stack_trace st t) = Exhausted -> stack w' = [])
    /\ stack w' ++ (inv_exec <$> through stops_v1 (stack_trace st t))
       ≡ₚ st ++ flat_map registered_by (through stops_v1 (stack_trace st t)).
Proof.
  revert t st cs tr. induction fuel as [|fuel IH]; intros t st cs tr Hfuel.
  - destruct st as [|exec rest _] using rev_ind.
    + exists (mkWorld [] cs). simpl. by rewrite !app_nil_r.
    + rewrite stack_trace_snoc in Hfuel. simpl in Hfuel. lia.
  - destruct st as [|exec rest _] using rev_ind.
    + exists (mkWorld [] cs). rewrite V1_drain_nil. simpl. by rewrite !app_nil_r.
    + rewrite V1_drain_snoc. cbn zeta.
      rewrite stack_trace_snoc in Hfuel |- *. simpl in Hfuel.
      cbn [through loop_exit].
      assert (Hs : stops_v1 (mkInvocation exec t (outcome (exec t)))
                   = is_pending (outcome (exec t))) by done.
      assert (He : exit_at (mkInvocation exec t (outcome (exec t)))
                   = match outcome (exec t) with
                     | Rejected error => Thrown error
                     | _ => Suspended
                     end) by done.
      rewrite Hs, He. clear Hs He.
      assert (Hnext : forall p, exists w',
        V1.drain fuel (written (exec t) t)
                 (mkWorld (rest ++ deferred (exec t)) (cs ++ recorded (exec t)))
                 (tr ++ [mkInvocation exec t p])
        = Some (loop_exit stops_v1
                  (body_trace (exec t) (written (exec t) t)
                   ++ stack_trace rest (body_end (exec t) (written (exec t) t))),
                w',
                last_tuple t
                  (mkInvocation exec t p
                   :: through stops_v1
                        (body_trace (exec t) (written (exec t) t)
                         ++ stack_trace rest (body_end (exec t) (written (exec t) t)))),
                tr ++ mkInvocation exec t p
                   :: through stops_v1
                        (body_trace (exec t) (written (exec t) t)
                         ++ stack_trace rest (body_end (exec t) (written (exec t) t))))
        /\ calls w'
           = cs ++ flat_map recorded_by
                     (mkInvocation exec t p
                      :: through stops_v1
                           (body_trace (exec t) (written (exec t) t)
                            ++ stack_trace rest (body_end (exec t) (written (exec t) t))))
        /\ (loop_exit stops_v1
              (body_trace (exec t) (written (exec t) t)
               ++ stack_trace rest (body_end (exec t) (written (exec t) t))) = Exhausted ->
            stack w' = [])
        /\ stack w'
           ++ (inv_exec <$> mkInvocation exec t p
                            :: through stops_v1
                                 (body_trace (exec t) (written (exec t) t)
                                  ++ stack_trace rest
                                       (body_end (exec t) (written (exec t) t))))
           ≡ₚ (rest ++ [exec])
              ++ flat_map registered_by
                   (mkInvocation exec t p
                    :: through stops_v1
                         (body_trace (exec t) (written (exec t) t)
                          ++ stack_trace rest (body_end (exec t) (written (exec t) t))))).
      { intros p.
        destruct (IH (written (exec t) t) (rest ++ deferred (exec t))
                     (cs ++ recorded (exec t)) (tr ++ [mkInvocation exec t p]))
          as (w' & Hd & Hc & Hst & Hperm).
        { rewrite stack_trace_pushed. lia. }
        rewrite stack_trace_pushed in Hd, Hc, Hst, Hperm.
        exists w'. rewrite Hd, Hc. repeat split.
        -- by rewrite <- app_assoc.
        -- simpl. by rewrite <- app_assoc.
        -- done.
        -- by apply accounts_step. }
      destruct (outcome (exec t)) as [v|e|] eqn:Hout; cbn [is_pending].
      * apply Hnext.
      * apply Hnext.
      * eexists. repeat split; [| done |].
        -- simpl. by rewrite app_nil_r.
        -- apply accounts_step. simpl. by rewrite !app_nil_r.
Qed.

(** ** The two variants against the history *)

(** The three ways a run of the second variant can go: the unit of work
    throws before returning a promise, its promise never settles, or the
    promise is captured and the stack drained. *)
Lemma V2_deferrable_cases (fn : Body) :
  (exists e,
      raised fn = Some e
      /\ V2.deferrable fn
         = Some (mkRun (Rejected e) (mkWorld (deferred fn) (recorded fn)) []))
  \/ (raised fn = None /\ outcome fn = Pending
      /\ V2.deferrable fn
         = Some (mkRun Pending (mkWorld (deferred fn) (recorded fn)) []))
  \/ (exists r w',
         raised fn = None /\ wrap (outcome fn) = Resolved r
         /\ V2.deferrable fn
            = Some (mkRun (conclude r (loop_exit stops_v2 (body_trace fn r))) w'
                          (through stops_v2 (body_trace fn r)))
         /\ calls w' = recorded fn
                       ++ flat_map recorded_by (through stops_v2 (body_trace fn r))
         /\ (loop_exit stops_v2 (body_trace fn r) = Exhausted -> stack w' = [])
         /\ stack w' ++ (inv_exec <$> through stops_v2 (body_trace fn r))
            ≡ₚ deferred fn
               ++ flat_map registered_by (through stops_v2 (body_trace fn r))).
Proof.
  unfold V2.deferrable. rewrite run_body_spec. simpl.
  destruct (raised fn) as [e|] eqn:Hraised; [left; by exists e |]. right.
  destruct (outcome fn) as [v|e|] eqn:Hout; simpl.
  - right. exists (ok v).
    destruct (V2_drain_spec (pending (deferred fn) (ok v)) (ok v) (deferred fn)
                            (recorded fn) [])
      as (w' & Hd & Hc & Hst & Hperm); [done |].
    rewrite <- body_trace_deferred in Hd, Hc, Hst, Hperm.
    exists w'. rewrite Hd. simpl. repeat split; try done.
    by destruct (loop_exit stops_v2 _).
  - right. exists (failure e).
    destruct (V2_drain_spec (pending (deferred fn) (failure e)) (failure e) (deferred fn)
                            (recorded fn) [])
      as (w' & Hd & Hc & Hst & Hperm); [done |].
    rewrite <- body_trace_deferred in Hd, Hc, Hst, Hperm.
    exists w'. rewrite Hd. simpl. repeat split; try done.
    unfold conclude. simpl.
    by destruct (loop_exit stops_v2 _), (is_undefined e).
  - by left.
Qed.

(** The same for the first variant, which concludes from the tuple as the
    history left it. *)
Lemma V1_deferrable_cases (fn : Body) :
  (exists e,
      raised fn = Some e
      /\ V1.deferrable fn
         = Some (mkRun (Rejected e) (mkWorld (deferred fn) (recorded fn)) []))
  \/ (raised fn = None /\ outcome fn = Pending
      /\ V1.deferrable fn
         = Some (mkRun Pending (mkWorld (deferred fn) (recorded fn)) []))
  \/ (exists r w',
         raised fn = None /\ wrap (outcome fn) = Resolved r
         /\ V1.deferrable fn
            = Some (mkRun (conclude (last_tuple r (through stops_v1 (body_trace fn r)))
                                    (loop_exit stops_v1 (body_trace fn r))) w'
                          (through stops_v1 (body_trace fn r)))
         /\ calls w' = recorded fn
                       ++ flat_map recorded_by (through stops_v1 (body_trace fn r))
         /\ (loop_exit stops_v1 (body_trace fn r) = Exhausted -> stack w' = [])
         /\ stack w' ++ (inv_exec <$> through stops_v1 (body_trace fn r))
            ≡ₚ deferred fn
               ++ flat_map registered_by (through stops_v1 (body_trace fn r))).
Proof.
  assert (Hdrained : forall r,
    exists w',
      match V1.drain (pending (deferred fn) r) r
                     (mkWorld (deferred fn) (recorded fn)) [] with
      | Some (Exhausted, w', (value, error), tr) =>
          if is_undefined error
          then Some (mkRun (Resolved value) w' tr)
          else Some (mkRun (Rejected error) w' tr)
      | Some (Thrown e, w', _, tr) => Some (mkRun (Rejected e) w' tr)
      | Some (Suspended, w', _, tr) => Some (mkRun Pending w' tr)
      | None => None
      end
      = Some (mkRun (conclude (last_tuple r (through stops_v1 (body_trace fn r)))
                              (loop_exit stops_v1 (body_trace fn r))) w'
                    (through stops_v1 (body_trace fn r)))
      /\ calls w' = recorded fn
                    ++ flat_map recorded_by (through stops_v1 (body_trace fn r))
      /\ (loop_exit stops_v1 (body_trace fn r) = Exhausted -> stack w' = [])
      /\ stack w' ++ (inv_exec <$> through stops_v1 (body_trace fn r))
         ≡ₚ deferred fn
            ++ flat_map registered_by (through stops_v1 (body_trace fn r))).
  { intros r.
    destruct (V1_drain_spec (pending (deferred fn) r) r (deferred fn) (recorded fn) [])
      as (w' & Hd & Hc & Hst & Hperm); [done |].
    rewrite <- body_trace_deferred in Hd, Hc, Hst, Hperm.
    exists w'. rewrite Hd. simpl. repeat split; try done.
    unfold conclude.
    destruct (loop_exit stops_v1 _); try done.
    destruct (last_tuple r _) as [value error]. simpl.
    by destruct (is_undefined error). }
  unfold V1.deferrable. rewrite run_body_spec. simpl.
  destruct (raised fn) as [e|] eqn:Hraised; [left; by exists e |]. right.
  destruct (outcome fn) as [v|e|] eqn:Hout; simpl.
  - right. exists (ok v). destruct (Hdrained (ok v)) as (w' & H). by exists w'.
  - right. exists (failure e). destruct (Hdrained (failure e)) as (w' & H). by exists w'.
  - by left.
Qed.

(** ** Reading a cut history *)

Lemma cut_in_trace (stop : Invocation -> bool) (l : list Invocation) (i : Invocation) :
  i ∈ through stop l -> i ∈ l.
Proof. intros Hi. eapply elem_of_prefix; [exact Hi | apply through_prefix]. Qed.

Lemma stops_v2_false (i : Invocation) :
  stops_v2 i = false -> is_resolved (inv_settled i) = true.
Proof. unfold stops_v2. by destruct (is_resolved (inv_settled i)). Qed.

Lemma cut_v2_all_resolved (l : list Invocation) :
  (forall i, i ∈ through stops_v2 l -> is_resolved (inv_settled i) = true) ->
  through stops_v2 l = l /\ loop_exit stops_v2 l = Exhausted.
Proof.
  intros H.
  assert (forall i, i ∈ through stops_v2 l -> stops_v2 i = false) as H'.
  { intros i Hi. unfold stops_v2. by rewrite (H i Hi). }
  split; [by apply through_id | by apply loop_exit_exhausted].
Qed.

Lemma cut_v2_rejected (l : list Invocation) (i : Invocation) (D : JsVal) :
  i ∈ through stops_v2 l -> inv_settled i = Rejected D ->
  loop_exit stops_v2 l = Thrown D.
Proof.
  intros Hi HD. rewrite (loop_exit_stopped stops_v2 l i Hi).
  - unfold exit_at. by rewrite HD.
  - unfold stops_v2. by rewrite HD.
Qed.

Lemma cut_v2_thrown (l : list Invocation) (D : JsVal) :
  loop_exit stops_v2 l = Thrown D ->
  exists i, i ∈ through stops_v2 l /\ inv_settled i = Rejected D.
Proof.
  induction l as [|x l IH]; simpl; [done |].
  destruct (stops_v2 x) eqn:Hx.
  - unfold exit_at. destruct (inv_settled x) as [v|e|] eqn:Hs; intros [= <-].
    exists x. split; [apply list_elem_of_here | done].
  - intros (i & Hi & HD)%IH. exists i. split; [by apply list_elem_of_further | done].
Qed.

Lemma cut_v2_suspended (l : list Invocation) :
  loop_exit stops_v2 l = Suspended ->
  exists i, i ∈ through stops_v2 l /\ inv_settled i = Pending.
Proof.
  induction l as [|x l IH]; simpl; [done |].
  destruct (stops_v2 x) eqn:Hx.
  - unfold exit_at, stops_v2 in *. destruct (inv_settled x) as [v|e|] eqn:Hs; try done.
    intros _. exists x. split; [apply list_elem_of_here | done].
  - intros (i & Hi & HD)%IH. exists i. split; [by apply list_elem_of_further | done].
Qed.

Lemma cut_v1_none_pending (l : list Invocation) :
  (forall i, i ∈ through stops_v1 l -> inv_settled i <> Pending) ->
  through stops_v1 l = l /\ loop_exit stops_v1 l = Exhausted.
Proof.
  intros H.
  assert (forall i, i ∈ through stops_v1 l -> stops_v1 i = false) as H'.
  { intros i Hi. specialize (H i Hi). unfold stops_v1.
    by destruct (inv_settled i). }
  split; [by apply through_id | by apply loop_exit_exhausted].
Qed.

(** The first variant's loop is never left by a throw. *)
Lemma cut_v1_exit (l : list Invocation) :
  loop_exit stops_v1 l = Exhausted \/ loop_exit stops_v1 l = Suspended.
Proof.
  induction l as [|x l IH]; simpl; [by left |].
  unfold stops_v1, exit_at. destruct (inv_settled x); simpl; auto.
Qed.

Lemma cut_v1_suspended (l : list Invocation) :
  loop_exit stops_v1 l = Suspended ->
  exists pre i, through stops_v1 l = pre ++ [i] /\ inv_settled i = Pending.
Proof.
  intros Hexit.
  destruct (loop_exit_stopped_inv stops_v1 l) as (pre & i & Hcut & Hi & _);
    [by rewrite Hexit |].
  exists pre, i. split; [done |]. unfold stops_v1 in Hi. by destruct (inv_settled i).
Qed.

(** How a tuple is concluded when the loop runs dry. *)
Lemma conclude_ok (V : JsVal) : conclude (ok V) Exhausted = Resolved V.
Proof. reflexivity. Qed.

Lemma conclude_failure (E : JsVal) :
  conclude (failure E) Exhausted
  = if is_undefined E then Resolved VUndefined else Rejected E.
Proof. reflexivity. Qed.

Lemma is_undefined_false (v : JsVal) : v <> VUndefined -> is_undefined v = false.
Proof. by destruct v. Qed.

Lemma is_undefined_true (v : JsVal) : is_undefined v = true -> v = VUndefined.
Proof. by destruct v. Qed.

(** A history without a write leaves the tuple as it found it. *)
Lemma last_tuple_untouched (t : Result) (l : list Invocation) :
  handed_on t l -> (forall i, i ∈ l -> left_by i = inv_result i) -> last_tuple t l = t.
Proof.
  revert t. induction l as [|i l IH]; intros t; simpl; [done |].
  intros [Hi Hl] Hw. rewrite (Hw i (list_elem_of_here _ _)), Hi in *.
  apply IH; [done |]. intros j Hj. apply Hw. by apply list_elem_of_further.
Qed.

Lemma handed_on_untouched (t : Result) (l : list Invocation) :
  handed_on t l -> (forall i, i ∈ l -> left_by i = inv_result i) ->
  forall i, i ∈ l -> inv_result i = t.
Proof.
  revert t. induction l as [|j l IH]; intros t; simpl; [by intros _ _ i ?%elem_of_nil |].
  intros [Hj Hl] Hw i [->|Hi]%elem_of_cons; [done |].
  rewrite (Hw j (list_elem_of_here _ _)), Hj in Hl.
  apply (IH t); [done | | done]. intros k Hk. apply Hw. by apply list_elem_of_further.
Qed.

(** ** Every run is a faithful history *)

Ltac run_cases_v2 fn :=
  let e := fresh "e" in let r := fresh "r" in let w' := fresh "w'" in
  let Hraised := fresh "Hraised" in let Hout := fresh "Hout" in
  let Hwrap := fresh "Hwrap" in let Hrun := fresh "Hrun" in
  let Hcalls := fresh "Hcalls" in let Hstack := fresh "Hstack" in
  let Hperm := fresh "Hperm" in
  destruct (V2_deferrable_cases fn)
    as [(e & Hraised & Hrun)
       |[(Hraised & Hout & Hrun)
        |(r & w' & Hraised & Hwrap & Hrun & Hcalls & Hstack & Hperm)]].

Ltac run_cases_v1 fn :=
  let e := fresh "e" in let r := fresh "r" in let w' := fresh "w'" in
  let Hraised := fresh "Hraised" in let Hout := fresh "Hout" in
  let Hwrap := fresh "Hwrap" in let Hrun := fresh "Hrun" in
  let Hcalls := fresh "Hcalls" in let Hstack := fresh "Hstack" in
  let Hperm := fresh "Hperm" in
  destruct (V1_deferrable_cases fn)
    as [(e & Hraised & Hrun)
       |[(Hraised & Hout & Hrun)
        |(r & w' & Hraised & Hwrap & Hrun & Hcalls & Hstack & Hperm)]].

Lemma V2_deferrable_total (fn : Body) : is_Some (V2.deferrable fn).
Proof. run_cases_v2 fn; by rewrite Hrun. Qed.

Lemma V1_deferrable_total (fn : Body) : is_Some (V1.deferrable fn).
Proof. run_cases_v1 fn; by rewrite Hrun. Qed.

Lemma V2_faithful (fn : Body) (run : Run) :
  V2.deferrable fn = Some run -> faithful_history fn run.
Proof.
  run_cases_v2 fn; rewrite Hrun; intros [= <-]; unfold faithful_history; simpl.
  - split; [by intros i ?%elem_of_nil |]. by rewrite !app_nil_r.
  - split; [by intros i ?%elem_of_nil |]. by rewrite !app_nil_r.
  - split; [| done]. intros i Hi%cut_in_trace. by eapply body_trace_truthful.
Qed.

Lemma V1_faithful (fn : Body) (run : Run) :
  V1.deferrable fn = Some run -> faithful_history fn run.
Proof.
  run_cases_v1 fn; rewrite Hrun; intros [= <-]; unfold faithful_history; simpl.
  - split; [by intros i ?%elem_of_nil |]. by rewrite !app_nil_r.
  - split; [by intros i ?%elem_of_nil |]. by rewrite !app_nil_r.
  - split; [| done]. intros i Hi%cut_in_trace. by eapply body_trace_truthful.
Qed.

(** A promise that rejected or never settled was returned: nothing was
    thrown before. *)
Lemma wrap_resolved_inv (fn : Body) (r : Result) :
  wrap (outcome fn) = Resolved r ->
  (exists V, outcome fn = Resolved V /\ r = ok V)
  \/ (exists E, outcome fn = Rejected E /\ r = failure E).
Proof. destruct (outcome fn) as [v|e|]; simpl; intros [= <-]; eauto. Qed.

Ltac concrete_run H := vm_compute in H; injection H as H; subst.

Ltac each_entry H :=
  repeat (apply elem_of_cons in H as [->|H]); try (by apply elem_of_nil in H).

(** ** More on cut histories *)

(** A cut history goes on after an entry that does not stop it. *)
Lemma through_split {A : Type} (stop : A -> bool) (l pre post : list A) (x : A) :
  through stop l = pre ++ x :: post -> stop x = false ->
  exists rest, l = pre ++ x :: rest /\ post = through stop rest.
Proof.
  revert l. induction pre as [|z pre IH]; intros [|y l]; simpl; try done.
  - destruct (stop y) eqn:Hy; intros [= -> <-] Hx; [congruence |]. by exists l.
  - destruct (stop y) eqn:Hy.
    + intros [= -> H]. by destruct pre.
    + intros [= -> H] Hx. destruct (IH l H Hx) as (rest & -> & ->). by exists rest.
Qed.

(** The callback a body registered last is the first of its history. *)
Lemma body_trace_head (b : Body) (t : Result) (exec : DeferredCallback) :
  last (deferred b) = Some exec ->
  exists B, body_trace b t = mkInvocation exec t (outcome (exec t)) :: B.
Proof.
  intros [l' Hl]%last_Some. rewrite body_trace_deferred, Hl, stack_trace_snoc. eauto.
Qed.

Lemma pops_trace_flat_all (l : list DeferredCallback) (t : Result) :
  (forall i, i ∈ pops_trace l t -> registered_by i = []) ->
  inv_exec <$> pops_trace l t = l.
Proof.
  revert t. induction l as [|exec l IH]; intros t; simpl; [done |]. intros Hflat.
  assert (deferred (exec t) = []) as Hnone.
  { apply (Hflat (mkInvocation exec t (outcome (exec t)))), list_elem_of_here. }
  rewrite (body_trace_deferred (exec t)), (body_end_deferred (exec t)), Hnone in Hflat |- *.
  simpl in Hflat |- *. f_equal. apply IH. intros i Hi. apply Hflat.
  by apply list_elem_of_further.
Qed.

(** Why the second variant's loop was left: the stack ran dry, or the last
    invocation did not succeed. *)
Lemma cut_v2_halt (l : list Invocation) :
  loop_exit stops_v2 l = Exhausted
  \/ exists pre i, through stops_v2 l = pre ++ [i] /\ is_resolved (inv_settled i) = false.
Proof.
  destruct (loop_exit stops_v2 l) eqn:Hexit; [by left | |];
    right; destruct (loop_exit_stopped_inv stops_v2 l) as (pre & i & Hcut & Hi & _);
    try (by rewrite Hexit); exists pre, i; split; try done;
    unfold stops_v2 in Hi; by destruct (is_resolved (inv_settled i)).
Qed.

Lemma cut_v1_halt (l : list Invocation) :
  loop_exit stops_v1 l = Exhausted
  \/ exists pre i, through stops_v1 l = pre ++ [i] /\ inv_settled i = Pending.
Proof.
  destruct (cut_v1_exit l) as [H|H]; [by left | right; by apply cut_v1_suspended].
Qed.

(** The callback an invocation registered last is invoked next, on the tuple
    as that invocation left it, when the loop goes on after it. *)
Lemma cut_next (stop : Invocation -> bool) (b : Body) (t : Result)
      (pre post : list Invocation) (i : Invocation) (exec : DeferredCallback) :
  through stop (body_trace b t) = pre ++ i :: post ->
  stop i = false ->
  last (registered_by i) = Some exec ->
  exists j post', post = j :: post' /\ inv_exec j = exec /\ inv_result j = left_by i.
Proof.
  intros Hcut Hi Hlast.
  destruct (through_split stop _ _ _ _ Hcut Hi) as (rest & Hrest & ->).
  destruct (body_trace_nested b t pre rest i Hrest) as [k ->].
  destruct (body_trace_head _ (left_by i) exec Hlast) as (B & ->).
  simpl. destruct (stop (mkInvocation exec _ _)); eexists _, _; (split; [reflexivity | done]).
Qed.

(** ** The callbacks registered before the drain, in general

    Whatever the invoked callbacks register on top of them, the callbacks
    that were on the stack when the loop started are popped from the top
    downwards: those popped come, in that order, among the callbacks
    invoked, and the others are still at the bottom of the stack when the
    loop is left, which then was not left because the stack ran dry. *)
Lemma V2_drain_order fuel t base top cs tr x w' t' tr' :
  V2.drain fuel t (mkWorld (base ++ top) cs) tr = Some (x, w', t', tr') ->
  exists new below popped,
    tr' = tr ++ new
    /\ base = below ++ popped
    /\ rev popped `sublist_of` (inv_exec <$> new)
    /\ below `prefix_of` stack w'
    /\ (below = [] \/ x <> Exhausted).
Proof.
  revert t base top cs tr. induction fuel as [|fuel IH]; intros t base top cs tr.
  - simpl. destruct (pop (base ++ top)) as [[exec rest]|] eqn:Hpop; [done |].
    intros [= <- <- <- <-].
    assert (base = []) as ->.
    { unfold pop in Hpop. destruct (rev (base ++ top)) eqn:Hrev; [| done].
      apply (f_equal (@rev _)) in Hrev. rewrite rev_involutive in Hrev. simpl in Hrev.
      by apply app_eq_nil in Hrev as [-> _]. }
    exists [], [], [].
    split; [by rewrite app_nil_r |]. split; [done |]. split; [constructor |].
    split; [apply prefix_nil | by left].
  - destruct top as [|exec top _] using rev_ind.
    + rewrite app_nil_r. destruct base as [|exec rest _] using rev_ind.
      * rewrite V2_drain_nil. intros [= <- <- <- <-]. exists [], [], [].
        split; [by rewrite app_nil_r |]. split; [done |]. split; [constructor |].
        split; [apply prefix_nil | by left].
      * rewrite V2_drain_snoc. cbn zeta.
        destruct (outcome (exec t)) as [v|e|] eqn:Hout.
        -- intros (new & below & popped & -> & -> & Hsub & Hpre & Hhalt)%IH.
           exists (mkInvocation exec t (Resolved v) :: new), below, (popped ++ [exec]).
           split; [by rewrite <- app_assoc |]. split; [by rewrite <- app_assoc |].
           split; [| done]. rewrite rev_app_distr. simpl. by apply sublist_skip.
        -- intros [= <- <- <- <-].
           exists [mkInvocation exec t (Rejected e)], rest, [exec].
           split; [done |]. split; [done |]. split; [done |].
           split; [by apply prefix_app_r | by right].
        -- intros [= <- <- <- <-].
           exists [mkInvocation exec t Pending], rest, [exec].
           split; [done |]. split; [done |]. split; [done |].
           split; [by apply prefix_app_r | by right].
    + rewrite app_assoc, V2_drain_snoc. cbn zeta.
      destruct (outcome (exec t)) as [v|e|] eqn:Hout.
      * rewrite <- app_assoc.
        intros (new & below & popped & -> & -> & Hsub & Hpre & Hhalt)%IH.
        exists (mkInvocation exec t (Resolved v) :: new), below, popped.
        split; [by rewrite <- app_assoc |]. split; [done |].
        split; [| done]. simpl. by apply sublist_cons.
      * intros [= <- <- <- <-].
        exists [mkInvocation exec t (Rejected e)], base, [].
        split; [done |]. split; [by rewrite app_nil_r |]. split; [apply sublist_nil_l |].
        split; [| by right]. simpl. rewrite <- app_assoc. by apply prefix_app_r.
      * intros [= <- <- <- <-].
        exists [mkInvocation exec t Pending], base, [].
        split; [done |]. split; [by rewrite app_nil_r |]. split; [apply sublist_nil_l |].
        split; [| by right]. simpl. rewrite <- app_assoc. by apply prefix_app_r.
Qed.

Lemma V2_order (fn : Body) (run : Run) :
  V2.deferrable fn = Some run ->
  exists below popped,
    deferred fn = below ++ popped
    /\ rev popped `sublist_of` (inv_exec <$> invocations run)
    /\ below `prefix_of` stack (final run)
    /\ (below = []
        \/ raised fn <> None \/ outcome fn = Pending
        \/ exists pre i, invocations run = pre ++ [i]
                         /\ is_resolved (inv_settled i) = false).
Proof.
  unfold V2.deferrable. rewrite run_body_spec. simpl.
  destruct (raised fn) as [e|] eqn:Hraised.
  { intros [= <-]. exists (deferred fn), []. simpl.
    split; [by rewrite app_nil_r |]. split; [constructor |]. split; [done |].
    right; by left. }
  destruct (wrap (outcome fn)) as [r|e|] eqn:Hr.
  - destruct (V2_drain_spec (pending (deferred fn) r) r (deferred fn) (recorded fn) [])
      as (w' & Hd & _); [done |].
    simpl in Hd. rewrite <- body_trace_deferred in Hd.
    destruct (V2_drain_order _ _ (deferred fn) [] _ _ _ _ _ _
                ltac:(rewrite app_nil_r; exact Hd))
      as (new & below & popped & Hnew & Hsplit & Hsub & Hpre & Hhalt).
    simpl in Hnew. subst new.
    assert (below = []
            \/ exists pre i, through stops_v2 (body_trace fn r) = pre ++ [i]
                             /\ is_resolved (inv_settled i) = false) as Hwhy.
    { destruct Hhalt as [->|Hne]; [by left |].
      destruct (cut_v2_halt (body_trace fn r)) as [Hexit|Hlast]; [done | by right]. }
    assert (forall s, exists below popped,
               deferred fn = below ++ popped
               /\ rev popped `sublist_of`
                  (inv_exec <$> invocations (mkRun s w' (through stops_v2 (body_trace fn r))))
               /\ below `prefix_of`
                  stack (final (mkRun s w' (through stops_v2 (body_trace fn r))))
               /\ (below = []
                   \/ None <> @None JsVal \/ outcome fn = Pending
                   \/ exists pre i,
                        invocations (mkRun s w' (through stops_v2 (body_trace fn r)))
                        = pre ++ [i]
                        /\ is_resolved (inv_settled i) = false)) as Hgoal.
    { intros s. exists below, popped. simpl. split; [done |]. split; [done |].
      split; [done |]. destruct Hwhy as [->|Hlast]; [by left | by right; right; right]. }
    destruct r as [value mainError]. rewrite Hd.
    destruct (loop_exit stops_v2 _); [destruct (is_undefined mainError) | |];
      intros [= <-]; apply Hgoal.
  - by destruct (outcome fn).
  - intros [= <-]. exists (deferred fn), []. simpl.
    split; [by rewrite app_nil_r |]. split; [constructor |]. split; [done |].
    right; right; left. by destruct (outcome fn).
Qed.

(** * The claims *)

(** ** C1 *)

(** C1.  The test "when the main function fails and a deferred callback
    fails, it throws an AggregateError containing both" expects an aggregate
    of the two errors.  On that very input the second variant rejects with
    the deferred callback's error alone: the main error is lost and no
    aggregate is built. *)
Theorem C1_both_fail_rejects_with_deferred_error_alone :
  outcome test_both_fail = Rejected (VError "main failed")
  /\ settled <$> V2.deferrable test_both_fail = Some (Rejected (VError "defer failed"))
  /\ settled <$> V2.deferrable test_both_fail
     <> Some (Rejected (VAggregateError [VError "main failed"; VError "defer failed"])).
Proof. repeat split. vm_compute. discriminate. Qed.

(** ** C2 *)




(** ** C3 *)

(** C3 fails on the first variant: the callback drained first throws, and the
    callback below it on the stack is invoked all the same. *)
Lemma C3_counterexample_drain_goes_on :
  exists run i j,
    V1.deferrable throw_then_more = Some run
    /\ invocations run = [i; j]
    /\ inv_settled i = Rejected (VError "defer failed")
    /\ recorded_by j = ["first"]
    /\ calls (final run) = ["first"].
Proof. eexists _, _, _. split; [reflexivity |]. simpl. done. Qed.

(** C3, amended.  In the second variant a deferred callback that fails is
    the last one invoked: the loop is left with the callbacks below it still
    on the stack, and it is left only when the stack is empty or the last
    invocation did not succeed.  The first variant catches the error and
    goes on: a failing invocation is the last one only when nothing is left
    on the stack, and the loop is left only when the stack is empty or the
    last invocation never settles. *)
Theorem C3_drain_after_a_failure (fn : Body) :
  (exists run,
      V2.deferrable fn = Some run
      /\ faithful_history fn run
      /\ (forall pre i post D,
            invocations run = pre ++ i :: post -> inv_settled i = Rejected D ->
            post = [])
      /\ (raised fn = None -> outcome fn <> Pending ->
          stack (final run) = []
          \/ exists pre i, invocations run = pre ++ [i]
                           /\ is_resolved (inv_settled i) = false))
  /\ (exists run,
         V1.deferrable fn = Some run
         /\ faithful_history fn run
         /\ (forall pre i D,
               invocations run = pre ++ [i] -> inv_settled i = Rejected D ->
               stack (final run) = [])
         /\ (raised fn = None -> outcome fn <> Pending ->
             stack (final run) = []
             \/ exists pre i, invocations run = pre ++ [i]
                              /\ inv_settled i = Pending)).
Proof.
  split.
  - run_cases_v2 fn.
    + eexists. split; [exact Hrun |]. split; [by apply V2_faithful |]. simpl.
      split; [| by rewrite Hraised]. intros pre i post D Hsplit. by destruct pre.
    + eexists. split; [exact Hrun |]. split; [by apply V2_faithful |]. simpl.
      split; [| done]. intros pre i post D Hsplit. by destruct pre.
    + eexists. split; [exact Hrun |]. split; [by apply V2_faithful |]. simpl. split.
      * intros pre i post D Hsplit HD.
        eapply through_stop_last; [exact Hsplit |]. unfold stops_v2. by rewrite HD.
      * intros _ _. destruct (cut_v2_halt (body_trace fn r)) as [Hexit|Hlast]; auto.
  - run_cases_v1 fn.
    + eexists. split; [exact Hrun |]. split; [by apply V1_faithful |]. simpl.
      split; [| by rewrite Hraised]. intros pre i D Hsplit. by destruct pre.
    + eexists. split; [exact Hrun |]. split; [by apply V1_faithful |]. simpl.
      split; [| done]. intros pre i D Hsplit. by destruct pre.
    + eexists. split; [exact Hrun |]. split; [by apply V1_faithful |]. simpl.
      destruct (cut_v1_halt (body_trace fn r)) as [Hexit|(pre' & j & Hcut & Hj)].
      * split; [intros pre i D _ _ | intros _ _; left]; auto.
      * split; [| intros _ _; right; by exists pre', j].
        intros pre i D Hsplit HD. rewrite Hcut in Hsplit.
        apply app_inj_tail in Hsplit as [_ ->]. by rewrite Hj in HD.
Qed.

(** The amended C3 on the fail-fast test and on [throw_then_more]. *)
Lemma C3_drain_after_a_failure_witness :
  (exists run pre i,
      V2.deferrable test_fail_fast = Some run
      /\ invocations run = pre ++ [i]
      /\ inv_settled i = Rejected (VError "defer failed")
      /\ calls (final run) = ["third"; "second"]
      /\ stack (final run) = [record_and_return "first"])
  /\ (exists run i j,
         V1.deferrable throw_then_more = Some run
         /\ invocations run = [i; j]
         /\ inv_settled i = Rejected (VError "defer failed")
         /\ calls (final run) = ["first"]
         /\ stack (final run) = []).
Proof.
  destruct (C3_drain_after_a_failure test_fail_fast) as [(run & Hrun & _ & Hlast & _) _].
  destruct (C3_drain_after_a_failure throw_then_more) as [_ (run' & Hrun' & _ & _ & Hhalt)].
  split.
  - exists run.
    assert (exists i j post, invocations run = [i] ++ j :: post
                             /\ inv_settled j = Rejected (VError "defer failed")
                             /\ calls (final run) = ["third"; "second"]
                             /\ stack (final run) = [record_and_return "first"])
      as (i & j & post & Hsplit & HD & Hcalls & Hstack).
    { clear Hlast. concrete_run Hrun. eexists _, _, _. repeat split; reflexivity. }
    rewrite (Hlast _ _ _ _ Hsplit HD) in Hsplit.
    by exists [i], j.
  - exists run'.
    assert (exists i j, invocations run' = [i; j]
                        /\ inv_settled i = Rejected (VError "defer failed")
                        /\ inv_settled j = Resolved VUndefined
                        /\ calls (final run') = ["first"])
      as (i & j & Hinv & Hi & Hj & Hcalls).
    { clear Hhalt. concrete_run Hrun'. eexists _, _. repeat split; reflexivity. }
    exists i, j. repeat split; try done.
    destruct Hhalt as [Hempty|(pre & k & Hk & Hpending)]; [done | done | done |].
    rewrite Hinv in Hk. change [i; j] with ([i] ++ [j]) in Hk.
    apply app_inj_tail in Hk as [_ <-]. by rewrite Hj in Hpending.
Defined.

(** ** C4 *)




(** ** C5 *)




(** ** C6 *)




(** ** C7 *)

(** C7.  When the unit of work succeeds and the [K]-th invocation of the
    drain fails with [D], the run fails with [D] itself. *)
Theorem C7_deferred_error_alone_after_success (fn : Body) (V : JsVal) :
  outcome fn = Resolved V ->
  exists run,
    V2.deferrable fn = Some run
    /\ forall K i D,
         invocations run !! K = Some i -> inv_settled i = Rejected D ->
         settled run = Rejected D.
Proof.
  intros HV. run_cases_v2 fn.
  - by rewrite (raised_outcome fn e Hraised) in HV.
  - by rewrite Hout in HV.
  - eexists. split; [exact Hrun |]. simpl.
    intros K i D Hi%list_elem_of_lookup_2 HD.
    by rewrite (cut_v2_rejected _ i D Hi HD).
Qed.

Lemma C7_deferred_error_alone_after_success_witness :
  settled <$> V2.deferrable test_fail_fast = Some (Rejected (VError "defer failed")).
Proof.
  destruct (C7_deferred_error_alone_after_success test_fail_fast (VString "ok") eq_refl)
    as (run & Hrun & Hfail).
  rewrite Hrun. simpl. f_equal.
  concrete_run Hrun. by eapply (Hfail 1).
Defined.

(** ** C8 *)

(** C8 fails on its last part: the result captured from a unit of work that
    rejects with [undefined], or that resolves with [undefined], has neither
    slot populated, and the two captures are the same tuple. *)
Lemma C8_counterexample_neither_slot :
  exists r,
    wrap (Rejected VUndefined) = Resolved r
    /\ wrap (Resolved VUndefined) = Resolved r
    /\ carries_value r = false
    /\ carries_error r = false.
Proof. by exists (VUndefined, VUndefined). Qed.

(** C8, amended.  Capturing never rejects, and the captured result never has
    both slots populated; exactly one is populated unless the unit of work
    resolved with [undefined] or failed with [undefined], in which case
    neither is. *)
Theorem C8_capture_never_rejects_never_both (p : Promise JsVal) :
  (forall e, wrap p <> Rejected e)
  /\ (p <> Pending -> exists r, wrap p = Resolved r)
  /\ forall r, wrap p = Resolved r ->
       carries_value r && carries_error r = false
       /\ (carries_value r || carries_error r = false
           <-> p = Resolved VUndefined \/ p = Rejected VUndefined).
Proof.
  split; [by destruct p |]. split; [destruct p; eauto; done |].
  intros r. destruct p as [v|e|]; simpl; intros [= <-]; unfold carries_value, carries_error;
    simpl.
  - split; [by rewrite andb_false_r |]. rewrite orb_false_r.
    destruct v; simpl; split; intros H; first [done | by left | by destruct H].
  - split; [done |].
    destruct e; simpl; split; intros H; first [done | by right | by destruct H].
Qed.

Lemma C8_capture_never_rejects_never_both_witness :
  wrap (Rejected (VError "boom")) = Resolved (VUndefined, VError "boom")
  /\ carries_value (VUndefined, VError "boom") && carries_error (VUndefined, VError "boom")
     = false.
Proof.
  destruct (C8_capture_never_rejects_never_both (Rejected (VError "boom")))
    as (_ & _ & Hone).
  split; [reflexivity |]. by apply (Hone _ eq_refl).
Defined.

(** ** C9 *)




(** ** C10 *)

(** C10 fails on the second variant: a deferred callback registers "late"
    while the stack is drained and then throws; the loop is left at once and
    "late" stays on the stack, never invoked. *)
Lemma C10_counterexample_late_registration_dropped :
  exists run i,
    V2.deferrable registrar_throws = Some run
    /\ invocations run = [i]
    /\ registered_by i = [record_and_return "late"]
    /\ stack (final run) = [record_and_return "outer"; record_and_return "late"]
    /\ calls (final run) = ["registrar"].
Proof. eexists _, _. split; [reflexivity |]. done. Qed.

(** C10, amended.  In both variants the loop looks at the stack again after
    every invocation, and is left only when the stack is empty or the last
    invocation stopped it: the callback an invocation registered last is the
    very next one invoked, on the tuple as that invocation left it, provided
    the invocation succeeded (second variant) or settled (first variant); and
    when the loop is left with the stack empty, every callback registered
    during the drain has been invoked.  In the second variant an invocation
    that fails ends the loop, and what it registered is not invoked. *)
Theorem C10_registered_while_draining_is_invoked (fn : Body) :
  (exists run,
      V2.deferrable fn = Some run
      /\ faithful_history fn run
      /\ (raised fn = None -> outcome fn <> Pending ->
          stack (final run) = []
          \/ exists pre i, invocations run = pre ++ [i]
                           /\ is_resolved (inv_settled i) = false)
      /\ (forall pre i post exec,
            invocations run = pre ++ i :: post ->
            is_resolved (inv_settled i) = true ->
            last (registered_by i) = Some exec ->
            exists j post',
              post = j :: post' /\ inv_exec j = exec /\ inv_result j = left_by i)
      /\ (stack (final run) = [] ->
          forall i exec, i ∈ invocations run -> exec ∈ registered_by i ->
                         exec ∈ inv_exec <$> invocations run)
      /\ (forall pre i post D,
            invocations run = pre ++ i :: post -> inv_settled i = Rejected D ->
            post = []))
  /\ (exists run,
         V1.deferrable fn = Some run
         /\ faithful_history fn run
         /\ (raised fn = None -> outcome fn <> Pending ->
             stack (final run) = []
             \/ exists pre i, invocations run = pre ++ [i]
                              /\ inv_settled i = Pending)
         /\ (forall pre i post exec,
               invocations run = pre ++ i :: post ->
               inv_settled i <> Pending ->
               last (registered_by i) = Some exec ->
               exists j post',
                 post = j :: post' /\ inv_exec j = exec /\ inv_result j = left_by i)
         /\ (stack (final run) = [] ->
             forall i exec, i ∈ invocations run -> exec ∈ registered_by i ->
                            exec ∈ inv_exec <$> invocations run)).
Proof.
  assert (Hall : forall run,
             faithful_history fn run -> stack (final run) = [] ->
             forall i exec, i ∈ invocations run -> exec ∈ registered_by i ->
                            exec ∈ inv_exec <$> invocations run).
  { intros run (_ & _ & Hperm) Hempty i exec Hi Hexec.
    rewrite Hempty in Hperm. simpl in Hperm. rewrite Hperm.
    apply elem_of_app. right. apply list_elem_of_In, in_flat_map.
    exists i. split; by apply list_elem_of_In. }
  split.
  - run_cases_v2 fn.
    + eexists. split; [exact Hrun |]. split; [by apply V2_faithful |]. simpl.
      split; [by rewrite Hraised |].
      split; [intros pre i post exec Hsplit; by destruct pre |].
      split; [by intros _ i exec ?%elem_of_nil |].
      intros pre i post D Hsplit; by destruct pre.
    + eexists. split; [exact Hrun |]. split; [by apply V2_faithful |]. simpl.
      split; [done |].
      split; [intros pre i post exec Hsplit; by destruct pre |].
      split; [by intros _ i exec ?%elem_of_nil |].
      intros pre i post D Hsplit; by destruct pre.
    + pose proof (V2_faithful fn _ Hrun) as Hreal.
      eexists. split; [exact Hrun |]. split; [done |]. split; [| split; [| split]].
      * simpl. intros _ _.
        destruct (cut_v2_halt (body_trace fn r)) as [Hexit|Hlast]; auto.
      * simpl. intros pre i post exec Hsplit Hi Hlast.
        eapply cut_next; [exact Hsplit | | exact Hlast].
        unfold stops_v2. by rewrite Hi.
      * by apply Hall.
      * simpl. intros pre i post D Hsplit HD.
        eapply through_stop_last; [exact Hsplit |]. unfold stops_v2. by rewrite HD.
  - run_cases_v1 fn.
    + eexists. split; [exact Hrun |]. split; [by apply V1_faithful |]. simpl.
      split; [by rewrite Hraised |].
      split; [intros pre i post exec Hsplit; by destruct pre |].
      by intros _ i exec ?%elem_of_nil.
    + eexists. split; [exact Hrun |]. split; [by apply V1_faithful |]. simpl.
      split; [done |].
      split; [intros pre i post exec Hsplit; by destruct pre |].
      by intros _ i exec ?%elem_of_nil.
    + pose proof (V1_faithful fn _ Hrun) as Hreal.
      eexists. split; [exact Hrun |]. split; [done |]. split; [| split].
      * simpl. intros _ _.
        destruct (cut_v1_halt (body_trace fn r)) as [Hexit|Hlast]; auto.
      * simpl. intros pre i post exec Hsplit Hi Hlast.
        eapply cut_next; [exact Hsplit | | exact Hlast].
        unfold stops_v1. by destruct (inv_settled i).
      * by apply Hall.
Qed.

(** The amended C10 on [registers_while_draining], in both variants: "late",
    registered during the drain, is invoked right after the callback that
    registered it. *)
Lemma C10_registered_while_draining_is_invoked_witness :
  (exists run i j post,
      V2.deferrable registers_while_draining = Some run
      /\ invocations run = i :: j :: post
      /\ inv_exec j = record_and_return "late"
      /\ calls (final run) = ["registrar"; "late"; "outer"])
  /\ (exists run i j post,
         V1.deferrable registers_while_draining = Some run
         /\ invocations run = i :: j :: post
         /\ inv_exec j = record_and_return "late"
         /\ calls (final run) = ["registrar"; "late"; "outer"]).
Proof.
  destruct (C10_registered_while_draining_is_invoked registers_while_draining)
    as [(run & Hrun & _ & _ & Hnext & _) (run' & Hrun' & _ & _ & Hnext' & _)].
  split.
  - exists run.
    assert (exists i post, invocations run = [] ++ i :: post
                           /\ is_resolved (inv_settled i) = true
                           /\ last (registered_by i) = Some (record_and_return "late")
                           /\ calls (final run) = ["registrar"; "late"; "outer"])
      as (i & post & Hsplit & Hi & Hlast & Hcalls).
    { clear Hnext. concrete_run Hrun. eexists _, _. repeat split; reflexivity. }
    destruct (Hnext _ _ _ _ Hsplit Hi Hlast) as (j & post' & -> & Hj & _).
    by exists i, j, post'.
  - exists run'.
    assert (exists i post, invocations run' = [] ++ i :: post
                           /\ inv_settled i <> Pending
                           /\ last (registered_by i) = Some (record_and_return "late")
                           /\ calls (final run') = ["registrar"; "late"; "outer"])
      as (i & post & Hsplit & Hi & Hlast & Hcalls).
    { clear Hnext'. concrete_run Hrun'. eexists _, _. repeat split; done. }
    destruct (Hnext' _ _ _ _ Hsplit Hi Hlast) as (j & post' & -> & Hj & _).
    by exists i, j, post'.
Defined.

(** * Further properties of the code *)

(** ** What the captured tuple still tells *)

(** X1.  [wrap] (with [ok] and [failure]) loses nothing but one
    distinction: two promises are captured as the same thing only when they
    are the same, or when one resolved with [undefined] and the other
    rejected with [undefined]. *)
Theorem X1_wrap_single_collision (p q : Promise JsVal) :
  wrap p = wrap q ->
  p = q
  \/ (p = Resolved VUndefined /\ q = Rejected VUndefined)
  \/ (p = Rejected VUndefined /\ q = Resolved VUndefined).
Proof.
  destruct p as [v|e|], q as [v'|e'|]; simpl; unfold ok, failure; intros [=]; subst; auto.
Qed.

Lemma X1_wrap_single_collision_witness :
  @Rejected JsVal VUndefined = @Resolved JsVal VUndefined
  \/ (@Rejected JsVal VUndefined = Resolved VUndefined
      /\ @Resolved JsVal VUndefined = Rejected VUndefined)
  \/ (@Rejected JsVal VUndefined = Rejected VUndefined
      /\ @Resolved JsVal VUndefined = Resolved VUndefined).
Proof. apply X1_wrap_single_collision. reflexivity. Defined.

(** ** Runs that never settle *)

Lemma deferrable_pending (fn : Body) :
  outcome fn = Pending ->
  V1.deferrable fn = Some (mkRun Pending (mkWorld (deferred fn) (recorded fn)) [])
  /\ V2.deferrable fn = Some (mkRun Pending (mkWorld (deferred fn) (recorded fn)) []).
Proof.
  intros Hp. split.
  - run_cases_v1 fn; [| done |].
    + by rewrite (raised_outcome fn e Hraised) in Hp.
    + by rewrite Hp in Hwrap.
  - run_cases_v2 fn; [| done |].
    + by rewrite (raised_outcome fn e Hraised) in Hp.
    + by rewrite Hp in Hwrap.
Qed.

(** X2.  When the unit of work never settles, neither variant invokes a
    single deferred callback: the run stays pending and what was registered
    stays on the stack. *)
Theorem X2_unit_of_work_never_settles (fn : Body) :
  outcome fn = Pending ->
  V1.deferrable fn = Some (mkRun Pending (mkWorld (deferred fn) (recorded fn)) [])
  /\ V2.deferrable fn = Some (mkRun Pending (mkWorld (deferred fn) (recorded fn)) []).
Proof. apply deferrable_pending. Qed.

Lemma X2_unit_of_work_never_settles_witness :
  V1.deferrable hangs_after_registering
  = Some (mkRun Pending (mkWorld [record_and_return "cleanup"] ["started"]) [])
  /\ V2.deferrable hangs_after_registering
     = Some (mkRun Pending (mkWorld [record_and_return "cleanup"] ["started"]) []).
Proof. apply (X2_unit_of_work_never_settles hangs_after_registering). reflexivity. Defined.

(** X3.  In both variants a deferred callback that never settles is the last
    one invoked, and the run never settles either. *)
Theorem X3_callback_never_settles (fn : Body) :
  (exists run,
      V1.deferrable fn = Some run
      /\ forall pre i post,
           invocations run = pre ++ i :: post -> inv_settled i = Pending ->
           post = [] /\ settled run = Pending)
  /\ (exists run,
         V2.deferrable fn = Some run
         /\ forall pre i post,
              invocations run = pre ++ i :: post -> inv_settled i = Pending ->
              post = [] /\ settled run = Pending).
Proof.
  assert (Hcut : forall stop l pre i post,
             (forall j, inv_settled j = Pending -> stop j = true) ->
             through stop l = pre ++ i :: post ->
             inv_settled i = Pending ->
             post = [] /\ loop_exit stop l = Suspended).
  { intros stop l pre i post Hstop Hsplit Hi. split.
    - eapply through_stop_last; [exact Hsplit | by apply Hstop].
    - rewrite (loop_exit_stopped stop _ i).
      + unfold exit_at. by rewrite Hi.
      + rewrite Hsplit. apply elem_of_app. right. apply list_elem_of_here.
      + by apply Hstop. }
  split.
  - run_cases_v1 fn.
    + eexists. split; [exact Hrun |]. simpl. intros pre i post Hsplit. by destruct pre.
    + eexists. split; [exact Hrun |]. simpl. intros pre i post Hsplit. by destruct pre.
    + eexists. split; [exact Hrun |]. simpl. intros pre i post Hsplit Hi.
      destruct (Hcut stops_v1 _ _ _ _ (fun j Hj => ltac:(unfold stops_v1; by rewrite Hj))
                     Hsplit Hi) as [-> ->]. done.
  - run_cases_v2 fn.
    + eexists. split; [exact Hrun |]. simpl. intros pre i post Hsplit. by destruct pre.
    + eexists. split; [exact Hrun |]. simpl. intros pre i post Hsplit. by destruct pre.
    + eexists. split; [exact Hrun |]. simpl. intros pre i post Hsplit Hi.
      destruct (Hcut stops_v2 _ _ _ _ (fun j Hj => ltac:(unfold stops_v2; by rewrite Hj))
                     Hsplit Hi) as [-> ->]. done.
Qed.

Lemma X3_callback_never_settles_witness :
  exists run i,
    V2.deferrable callback_hangs = Some run
    /\ invocations run = [i]
    /\ calls (final run) = ["stuck"]
    /\ settled run = Pending.
Proof.
  destruct (X3_callback_never_settles callback_hangs) as [_ (run & Hrun & Hlast)].
  exists run. concrete_run Hrun. eexists. split; [reflexivity |].
  split; [reflexivity |]. split; [reflexivity |].
  by eapply (Hlast [] _ []).
Defined.

(** ** What a settlement tells the caller *)

(** X4.  Second variant: a run that resolves has invoked every callback it
    popped with success and left the stack empty, and its value is the unit
    of work's (or [undefined] after a unit of work that rejected with
    [undefined]); a run that rejects does so with the unit of work's error
    or with the error of a callback it invoked, never with one of its
    own. *)
Theorem X4_second_variant_settlement_origin (fn : Body) :
  exists run,
    V2.deferrable fn = Some run
    /\ (forall v, settled run = Resolved v ->
          (outcome fn = Resolved v \/ (outcome fn = Rejected VUndefined /\ v = VUndefined))
          /\ (forall i, i ∈ invocations run -> is_resolved (inv_settled i) = true)
          /\ stack (final run) = [])
    /\ (forall x, settled run = Rejected x ->
          outcome fn = Rejected x
          \/ exists i, i ∈ invocations run /\ inv_settled i = Rejected x).
Proof.
  run_cases_v2 fn.
  - eexists. split; [exact Hrun |]. simpl. split; [done |].
    intros x [= <-]. left. by apply raised_outcome.
  - eexists. split; [exact Hrun |]. done.
  - eexists. split; [exact Hrun |]. simpl.
    destruct (loop_exit stops_v2 (body_trace fn r)) as [|D|] eqn:Hexit; simpl.
    + destruct (loop_exit_exhausted_inv _ _ Hexit) as [Hcut Hnone].
      assert (forall i, i ∈ through stops_v2 (body_trace fn r) ->
                        is_resolved (inv_settled i) = true) as Hall.
      { intros i Hi. apply stops_v2_false, Hnone. by rewrite <- Hcut. }
      destruct (wrap_resolved_inv fn r Hwrap) as [(V & HV & ->)|(E & HE & ->)]; simpl.
      * split; [| done]. intros v [= <-]. split; [by left |]. split; [done | auto].
      * destruct (is_undefined E) eqn:HEu.
        -- apply is_undefined_true in HEu as ->. split; [| done].
           intros v [= <-]. split; [by right |]. split; [done | auto].
        -- split; [done |]. intros x [= <-]. by left.
    + split; [done |]. intros x [= <-]. right. by apply cut_v2_thrown.
    + done.
Qed.

Lemma X4_second_variant_settlement_origin_witness :
  exists run,
    V2.deferrable test_lifo = Some run
    /\ settled run = Resolved (VNumber 42)
    /\ stack (final run) = []
    /\ forall i, i ∈ invocations run -> is_resolved (inv_settled i) = true.
Proof.
  destruct (X4_second_variant_settlement_origin test_lifo) as (run & Hrun & Hres & _).
  exists run. split; [done |].
  assert (settled run = Resolved (VNumber 42)) as Hs.
  { clear Hres. by concrete_run Hrun. }
  destruct (Hres _ Hs) as (_ & Hall & Hempty). done.
Defined.



(** ** The two variants side by side *)

Lemma V1_drain_S fuel t w tr :
  V1.drain (S fuel) t w tr
  = match pop (stack w) with
    | None => Some (Exhausted, w, t, tr)
    | Some (exec, rest) =>
        let '(p, w', t') := run_body (exec t) (mkWorld rest (calls w)) t in
        let tr' := tr ++ [mkInvocation exec t p] in
        match p with
        | Resolved _ => V1.drain fuel t' w' tr'
        | Rejected _ => V1.drain fuel t' w' tr'
        | Pending => Some (Suspended, w', t', tr')
        end
    end.
Proof. reflexivity. Qed.

Lemma V2_drain_S fuel t w tr :
  V2.drain (S fuel) t w tr
  = match pop (stack w) with
    | None => Some (Exhausted, w, t, tr)
    | Some (exec, rest) =>
        let '(p, w', t') := run_body (exec t) (mkWorld rest (calls w)) t in
        let tr' := tr ++ [mkInvocation exec t p] in
        match p with
        | Resolved _ => V2.drain fuel t' w' tr'
        | Rejected error => Some (Thrown error, w', t', tr')
        | Pending => Some (Suspended, w', t', tr')
        end
    end.
Proof. reflexivity. Qed.

Lemma V2_drain_as_V1 fuel t w tr x w' t' tr' :
  V2.drain fuel t w tr = Some (x, w', t', tr') ->
  (forall e, x <> Thrown e) ->
  V1.drain fuel t w tr = Some (x, w', t', tr').
Proof.
  revert t w tr. induction fuel as [|fuel IH]; intros t w tr.
  - simpl. by destruct (pop (stack w)) as [[exec rest]|].
  - rewrite V2_drain_S, V1_drain_S.
    destruct (pop (stack w)) as [[exec rest]|]; [| done].
    destruct (run_body (exec t) (mkWorld rest (calls w)) t) as [[[v|e|] w1] t1]; auto.
    intros [= <- <- <- <-] Hx. by destruct (Hx e).
Qed.

(** X6.  The two variants differ only through deferred callbacks that fail
    or that write into the tuple: when no callback invoked by the second
    variant rejects and none writes into the tuple, the first variant's run
    is the same run, with the same settlement, invocations and final
    world. *)
Theorem X6_variants_agree_without_deferred_failure (fn : Body) :
  exists run,
    V2.deferrable fn = Some run
    /\ ((forall i e, i ∈ invocations run -> inv_settled i <> Rejected e) ->
        (forall i, i ∈ invocations run -> left_by i = inv_result i) ->
        V1.deferrable fn = Some run).
Proof.
  unfold V2.deferrable, V1.deferrable. rewrite run_body_spec. simpl.
  destruct (raised fn) as [e|] eqn:Hraised; [eexists; split; [reflexivity | done] |].
  destruct (wrap (outcome fn)) as [r|e|] eqn:Hr;
    [| eexists; split; [reflexivity | done] ..].
  destruct (V2_drain_spec (pending (deferred fn) r) r (deferred fn) (recorded fn) [])
    as (w' & Hd & _); [done |].
  simpl in Hd. rewrite <- body_trace_deferred in Hd.
  destruct r as [value mainError]. rewrite Hd.
  destruct (loop_exit stops_v2 (body_trace fn (value, mainError))) as [|D|] eqn:Hexit.
  - rewrite (V2_drain_as_V1 _ _ _ _ _ _ _ _ Hd); [| done].
    destruct (is_undefined mainError) eqn:Hu;
      (eexists; split; [reflexivity |]; simpl; intros _ Hwrite;
       rewrite last_tuple_untouched;
       [by rewrite Hu
       | eapply handed_on_prefix; [apply through_prefix | apply body_trace_handed_on]
       | done]).
  - eexists. split; [reflexivity |]. simpl. intros Hnone _.
    destruct (cut_v2_thrown _ D Hexit) as (i & Hi & HD).
    by destruct (Hnone i D Hi).
  - rewrite (V2_drain_as_V1 _ _ _ _ _ _ _ _ Hd); [| done].
    eexists. split; [reflexivity | done].
Qed.

Lemma X6_variants_agree_without_deferred_failure_witness :
  V1.deferrable registers_while_draining = V2.deferrable registers_while_draining
  /\ is_Some (V2.deferrable registers_while_draining).
Proof.
  destruct (X6_variants_agree_without_deferred_failure registers_while_draining)
    as (run & Hrun & Hsame).
  rewrite Hrun. split; [| done]. apply Hsame.
  - clear Hsame. concrete_run Hrun. intros i e Hi. each_entry Hi; done.
  - clear Hsame. concrete_run Hrun. intros i Hi. each_entry Hi; done.
Defined.

(** ** Every registered callback is accounted for *)

(** X7.  In both variants no registered callback is lost and none is invoked
    twice: the callbacks invoked, together with those still on the stack
    when the run ends, are exactly the callbacks registered by the unit of
    work and by the invoked callbacks, each as often as it was registered. *)
Theorem X7_every_callback_accounted_for (fn : Body) :
  (exists run,
      V1.deferrable fn = Some run
      /\ stack (final run) ++ (inv_exec <$> invocations run)
         ≡ₚ deferred fn ++ flat_map registered_by (invocations run))
  /\ (exists run,
         V2.deferrable fn = Some run
         /\ stack (final run) ++ (inv_exec <$> invocations run)
            ≡ₚ deferred fn ++ flat_map registered_by (invocations run)).
Proof.
  split.
  - destruct (V1_deferrable_total fn) as [run Hrun]. exists run. split; [done |].
    by apply (V1_faithful fn run Hrun).
  - destruct (V2_deferrable_total fn) as [run Hrun]. exists run. split; [done |].
    by apply (V2_faithful fn run Hrun).
Qed.

(** ** What the run leaves in the caller's array *)

(** X8.  In both variants the names found in the caller's array after the
    run are those recorded by the unit of work followed by those recorded by
    each invoked callback, in the order of invocation: a callback that was
    registered but not invoked leaves nothing. *)
Theorem X8_effects_follow_invocations (fn : Body) :
  (exists run,
      V1.deferrable fn = Some run
      /\ calls (final run) = recorded fn ++ flat_map recorded_by (invocations run))
  /\ (exists run,
         V2.deferrable fn = Some run
         /\ calls (final run) = recorded fn ++ flat_map recorded_by (invocations run)).
Proof.
  split.
  - destruct (V1_deferrable_total fn) as [run Hrun]. exists run. split; [done |].
    by apply (V1_faithful fn run Hrun).
  - destruct (V2_deferrable_total fn) as [run Hrun]. exists run. split; [done |].
    by apply (V2_faithful fn run Hrun).
Qed.

(** ** Order of invocation *)

(** X9.  First variant: when the unit of work returned a promise that
    settled, no invoked callback registers a callback and each invocation
    settles, every registered callback is invoked, in the reverse of the
    registration order, whether or not some of them throw; the first finds
    the captured content in the tuple, each later one what the one before
    left. *)
Theorem X9_first_variant_lifo_despite_throws (fn : Body) (r : Result) :
  raised fn = None ->
  wrap (outcome fn) = Resolved r ->
  exists run,
    V1.deferrable fn = Some run
    /\ faithful_history fn run
    /\ handed_on r (invocations run)
    /\ ((forall i, i ∈ invocations run -> registered_by i = []) ->
        (forall i, i ∈ invocations run -> inv_settled i <> Pending) ->
        inv_exec <$> invocations run = rev (deferred fn)
        /\ stack (final run) = []).
Proof.
  intros Hnone Hr. run_cases_v1 fn.
  - by rewrite Hraised in Hnone.
  - by rewrite Hout in Hr.
  - rewrite Hr in Hwrap. injection Hwrap as <-.
    eexists. split; [exact Hrun |]. split; [by apply V1_faithful |]. simpl. split.
    + eapply handed_on_prefix; [apply through_prefix | apply body_trace_handed_on].
    + intros Hflat Hsettle. destruct (cut_v1_none_pending _ Hsettle) as [Hcut Hexit].
      rewrite Hcut in Hflat |- *. split; [| auto].
      rewrite body_trace_deferred in Hflat |- *. by apply pops_trace_flat_all.
Qed.

Lemma X9_first_variant_lifo_despite_throws_witness :
  exists run i j,
    V1.deferrable throw_then_more = Some run
    /\ invocations run = [i; j]
    /\ inv_settled i = Rejected (VError "defer failed")
    /\ inv_exec <$> invocations run = rev (deferred throw_then_more)
    /\ calls (final run) = ["first"].
Proof.
  destruct (X9_first_variant_lifo_despite_throws throw_then_more (ok (VString "ok"))
              eq_refl eq_refl)
    as (run & Hrun & _ & _ & Horder).
  exists run.
  assert (inv_exec <$> invocations run = rev (deferred throw_then_more)) as Hrev.
  { apply Horder.
    - clear Horder. concrete_run Hrun. intros i Hi. each_entry Hi; reflexivity.
    - clear Horder. concrete_run Hrun. intros i Hi. each_entry Hi; done. }
  clear Horder. concrete_run Hrun. eexists _, _.
  split; [reflexivity |]. split; [reflexivity |]. split; [reflexivity |].
  split; [exact Hrev | reflexivity].
Defined.

Lemma pops_trace_leaves (l : list DeferredCallback) (t : Result) :
  register_nothing l t ->
  inv_exec <$> pops_trace l t = l.
Proof.
  revert t. induction l as [|exec l IH]; intros t; simpl; [done |]. intros [Hflat Hl].
  rewrite (body_trace_deferred (exec t)), (body_end_deferred (exec t)), Hflat.
  simpl. f_equal. by apply IH.
Qed.

Lemma register_nothing_ever (l : list DeferredCallback) (t : Result) :
  (forall exec, exec ∈ l -> forall t', deferred (exec t') = []) ->
  register_nothing l t.
Proof.
  revert t. induction l as [|exec l IH]; intros t Hflat; simpl; [done |]. split.
  - apply Hflat, list_elem_of_here.
  - apply IH. intros exec' Hin. apply Hflat. by apply list_elem_of_further.
Qed.

Lemma register_nothing_unwritten (l : list DeferredCallback) (t : Result) :
  (forall exec, exec ∈ l -> deferred (exec t) = [] /\ written (exec t) t = t) ->
  register_nothing l t.
Proof.
  induction l as [|exec l IH]; intros Hflat; simpl; [done |].
  destruct (Hflat exec (list_elem_of_here _ _)) as [Hd Hw]. split; [done |].
  rewrite Hw. apply IH. intros exec' Hin. apply Hflat. by apply list_elem_of_further.
Qed.

(** X10.  In both variants, when the drain is not cut short, the callbacks
    an invoked callback registers (themselves registering nothing on the
    tuple they are handed, each receiving it as the one before left it) are
    the very next ones invoked, last registered first, before anything that
    was on the stack earlier. *)
Theorem X10_late_registrations_run_next (fn : Body) :
  (exists run,
      V1.deferrable fn = Some run
      /\ ((forall i, i ∈ invocations run -> inv_settled i <> Pending) ->
          forall pre i post,
            invocations run = pre ++ i :: post ->
            register_nothing (rev (registered_by i)) (left_by i) ->
            rev (registered_by i) `prefix_of` (inv_exec <$> post)))
  /\ (exists run,
         V2.deferrable fn = Some run
         /\ ((forall i, i ∈ invocations run -> is_resolved (inv_settled i) = true) ->
             forall pre i post,
               invocations run = pre ++ i :: post ->
               register_nothing (rev (registered_by i)) (left_by i) ->
               rev (registered_by i) `prefix_of` (inv_exec <$> post))).
Proof.
  assert (Hnext : forall r pre i post,
             body_trace fn r = pre ++ i :: post ->
             register_nothing (rev (registered_by i)) (left_by i) ->
             rev (registered_by i) `prefix_of` (inv_exec <$> post)).
  { intros r pre i post Hsplit Hflat.
    pose proof (body_trace_nested fn r pre post i Hsplit) as Hpre.
    apply (prefix_fmap_mono inv_exec) in Hpre.
    rewrite body_trace_deferred in Hpre. unfold stack_trace in Hpre.
    by rewrite pops_trace_leaves in Hpre. }
  split.
  - run_cases_v1 fn.
    + eexists. split; [exact Hrun |]. simpl. intros _ pre i post Hsplit. by destruct pre.
    + eexists. split; [exact Hrun |]. simpl. intros _ pre i post Hsplit. by destruct pre.
    + eexists. split; [exact Hrun |]. simpl. intros Hall.
      destruct (cut_v1_none_pending _ Hall) as [-> _]. by apply Hnext.
  - run_cases_v2 fn.
    + eexists. split; [exact Hrun |]. simpl. intros _ pre i post Hsplit. by destruct pre.
    + eexists. split; [exact Hrun |]. simpl. intros _ pre i post Hsplit. by destruct pre.
    + eexists. split; [exact Hrun |]. simpl. intros Hall.
      destruct (cut_v2_all_resolved _ Hall) as [-> _]. by apply Hnext.
Qed.

Lemma X10_late_registrations_run_next_witness :
  exists run i j post,
    V2.deferrable registers_while_draining = Some run
    /\ invocations run = i :: j :: post
    /\ registered_by i = [record_and_return "late"]
    /\ inv_exec j = record_and_return "late".
Proof.
  destruct (X10_late_registrations_run_next registers_while_draining)
    as [_ (run & Hrun & Hnext)].
  exists run.
  assert (forall i, i ∈ invocations run -> is_resolved (inv_settled i) = true) as Hall.
  { clear Hnext. concrete_run Hrun. intros i Hi. each_entry Hi; reflexivity. }
  specialize (Hnext Hall). clear Hall.
  assert (exists i j post, invocations run = i :: j :: post
                           /\ registered_by i = [record_and_return "late"])
    as (i & j & post & Hsplit & Hreg).
  { clear Hnext. concrete_run Hrun. eexists _, _, _. split; reflexivity. }
  exists i, j, post. split; [done |]. split; [done |]. split; [done |].
  specialize (Hnext [] i (j :: post) Hsplit). rewrite Hreg in Hnext.
  destruct Hnext as [k Hk].
  - split; reflexivity.
  - simpl in Hk. by injection Hk as Hk _.
Defined.
